(** * ridgeplot: colour interpolation

    A shallow embedding of [ridgeplot/_utils.py] and
    [ridgeplot/_color/interpolation.py].

    Conventions of the embedding:
    - Python numbers ([int] and [float]) are exact rationals [Q]; numeric
      equality [==] of Python is [Qeq], decided by [Qeq_bool].  Rounding
      error of binary floating point is outside the model.
    - A Python call either returns a value or raises: [Res A].
    - Sequences (lists, tuples) are lists.
    - Generators are modelled by the list of the items they yield; an item
      whose computation may raise when the generator is consumed is itself
      a [Res].  The first item that raises finishes its generator, which
      yields nothing after it ([generate]). *)

From Stdlib Require Import String Bool ZArith QArith Qround Lia Lqa List.
From Stdlib Require Import Permutation Sorted.
Import ListNotations.
Open Scope Q_scope.

(** ** Exceptions and the error monad *)

Inductive exn_kind : Type := TypeError | ValueError | ZeroDivisionError | IndexError.

(** One constructor per place where the modelled code can raise. *)
Inductive exn : Type :=
| UnexpectedKeyword (func kw : string)   (* f() got an unexpected keyword argument *)
| NotANumber                             (* float() of a sequence *)
| Not2DArray (n : nat)                   (* _utils.py:48 *)
| EmptyArray                             (* _utils.py:50 *)
| EmptyArraySequence                     (* _utils.py:54 *)
| MaxNotAboveMin (min_ max_ : Q)         (* _utils.py:60 *)
| ValOutOfBounds (val min_ max_ : Q)     (* _utils.py:64 *)
| PointOutsideUnit (p : Q)               (* interpolation.py:138 *)
| InvalidColormode (message : string)    (* interpolation.py:203 *)
| EmptySequenceArg (builtin : string)    (* min() / max() of an empty sequence *)
| UnpackMismatch (expected got : nat)    (* x, y = ... with another number of items *)
| NotInList                              (* list.index of an absent item *)
| IndexOutOfRange                        (* list[i] out of range *)
| DivisionByZero                         (* a / 0 *)
| ColorError (message : string).         (* raised by a colour helper *)

Definition kind_of (e : exn) : exn_kind :=
  match e with
  | UnexpectedKeyword _ _ | NotANumber => TypeError
  | IndexOutOfRange => IndexError
  | DivisionByZero => ZeroDivisionError
  | _ => ValueError
  end.

Inductive Res (A : Type) : Type :=
| Ok (a : A)
| Err (e : exn).
Arguments Ok {A} a.
Arguments Err {A} e.

Definition bind {A B} (r : Res A) (k : A -> Res B) : Res B :=
  match r with
  | Ok a => k a
  | Err e => Err e
  end.

Declare Scope res_scope.
Delimit Scope res_scope with res.
Notation "x <- c ;; k" := (bind c (fun x => k))
  (at level 61, c at next level, right associativity) : res_scope.
Open Scope res_scope.

Definition is_err {A} (r : Res A) : bool :=
  match r with Ok _ => false | Err _ => true end.

(** [for x in l: ...] collecting results, stopping at the first raise. *)
Fixpoint mapM {A B} (f : A -> Res B) (l : list A) : Res (list B) :=
  match l with
  | [] => Ok []
  | a :: l' => b <- f a ;; bs <- mapM f l' ;; Ok (b :: bs)
  end.

(** What consuming the generator [(f(a) for a in l)] gives: the items in
    order, up to and with the first one that raises; a generator that has
    raised is finished. *)
Fixpoint generate {A B} (f : A -> Res B) (l : list A) : list (Res B) :=
  match l with
  | [] => []
  | a :: l' =>
      match f a with
      | Ok b => Ok b :: generate f l'
      | Err e => [Err e]
      end
  end.

(** ** Python built-ins used by the code *)

Definition Qltb (x y : Q) : bool := negb (Qle_bool y x).

(** The [_Comparable] protocol of [_utils.py]: [__lt__] and [__gt__]. *)
Class Comparable (T : Type) : Type := {
  lt : T -> T -> bool;
  gt : T -> T -> bool
}.

#[export] Instance Comparable_Q : Comparable Q := {
  lt := Qltb;
  gt := fun x y => Qltb y x
}.

(** Sequences compare lexicographically. *)
Fixpoint seq_lt {T} `{Comparable T} (eqb : T -> T -> bool) (a b : list T) : bool :=
  match a, b with
  | [], [] => false
  | [], _ :: _ => true
  | _ :: _, [] => false
  | x :: a', y :: b' => if eqb x y then seq_lt eqb a' b' else lt x y
  end.

#[export] Instance Comparable_point : Comparable (list Q) := {
  lt := seq_lt Qeq_bool;
  gt := fun a b => seq_lt Qeq_bool b a
}.

(** [float(v)]. *)
Class Floatable (T : Type) : Type := py_float : T -> Res Q.
#[export] Instance Floatable_Q : Floatable Q := fun q => Ok q.
#[export] Instance Floatable_seq {T} : Floatable (list T) := fun _ => Err NotANumber.

Section Builtins.
Context {T : Type} `{Comparable T}.

(** [min] keeps the first of several least items: the running best is
    replaced only by an item that is [<] it. *)
Definition min_from (a : T) (l : list T) : T :=
  fold_left (fun best item => if lt item best then item else best) l a.

Definition max_from (a : T) (l : list T) : T :=
  fold_left (fun best item => if gt item best then item else best) l a.

Definition py_min (l : list T) : Res T :=
  match l with
  | [] => Err (EmptySequenceArg "min")
  | a :: l' => Ok (min_from a l')
  end.

Definition py_max (l : list T) : Res T :=
  match l with
  | [] => Err (EmptySequenceArg "max")
  | a :: l' => Ok (max_from a l')
  end.
End Builtins.

Definition is_nil {A} (l : list A) : bool :=
  match l with [] => true | _ => false end.

(** [sum(xs)] of numbers. *)
Definition py_sum (xs : list Q) : Q := fold_left Qplus xs 0.

(** [a / b] (true division). *)
Definition py_truediv (a b : Q) : Res Q :=
  if Qeq_bool b 0 then Err DivisionByZero else Ok (a / b).

(** [zip] of the unpacked [rows] (star-argument call): the columns of
    [rows], as many as the shortest row has items; no column at all when
    [rows] is empty. *)
Fixpoint heads {A} (rows : list (list A)) : option (list A) :=
  match rows with
  | [] => Some []
  | [] :: _ => None
  | (a :: _) :: rows' =>
      match heads rows' with
      | Some hs => Some (a :: hs)
      | None => None
      end
  end.

Fixpoint zip_star_aux {A} (fuel : nat) (rows : list (list A)) : list (list A) :=
  match fuel with
  | O => []
  | S fuel' =>
      match heads rows with
      | Some hs => hs :: zip_star_aux fuel' (map (@tl A) rows)
      | None => []
      end
  end.

Definition zip_star {A} (rows : list (list A)) : list (list A) :=
  match rows with
  | [] => []
  | r :: _ => zip_star_aux (length r) rows
  end.

(** [x, y = items]. *)
Definition unpack2 {A} (items : list A) : Res (A * A) :=
  match items with
  | [x; y] => Ok (x, y)
  | _ => Err (UnpackMismatch 2 (length items))
  end.

(** [l.index(v)] and [l[i]]. *)
Fixpoint index_of (v : Q) (l : list Q) : Res nat :=
  match l with
  | [] => Err NotInList
  | s :: l' => if Qeq_bool s v then Ok O else i <- index_of v l' ;; Ok (S i)
  end.

Definition item {A} (l : list A) (i : nat) : Res A :=
  match nth_error l i with
  | Some a => Ok a
  | None => Err IndexOutOfRange
  end.

(** [v in l]. *)
Definition py_in (v : Q) (l : list Q) : bool := existsb (fun s => Qeq_bool s v) l.

(** A call [f(kw=arg)] of a function of one parameter named [param].  It
    is used where the keyword of the call differs from the parameter; the
    other keyword arguments of the two files ([ctx], [p], [min_], [max_])
    name parameters of the functions called, and those calls are written
    as plain applications. *)
Definition call_keyword {A B} (func param : string) (f : A -> Res B)
    (kw : string) (arg : A) : Res B :=
  if String.eqb kw param then f arg else Err (UnexpectedKeyword func kw).

(** ** [_utils.py] *)

Section GetXyExtrema.
Context {T : Type} `{Comparable T}.

(** The body of the loop of [get_xy_extrema]: the two checks, then the
    members to append to [x] and [y]. *)
Definition check_array (array : list (list T)) : Res (list T * list T) :=
  match array with
  | [a0; a1] =>
      if is_nil a0 || is_nil a1 then Err EmptyArray else Ok (a0, a1)
  | _ => Err (Not2DArray (length array))
  end.

Fixpoint collect_xy (arrays : list (list (list T))) (x y : list T)
    : Res (list T * list T) :=
  match arrays with
  | [] => Ok (x, y)
  | array :: arrays' =>
      a <- check_array array ;;
      collect_xy arrays' (x ++ fst a) (y ++ snd a)
  end.

Definition get_xy_extrema (arrays : list (list (list T))) : Res (T * T * T * T) :=
  xy <- collect_xy arrays [] [] ;;
  let '(x, y) := xy in
  if is_nil x || is_nil y then Err EmptyArraySequence
  else
    x_min <- py_min x ;; x_max <- py_max x ;;
    y_min <- py_min y ;; y_max <- py_max y ;;
    Ok (x_min, x_max, y_min, y_max).
End GetXyExtrema.

(** The two guards compare as the code does; the quotient returned is the
    exact one, where the code returns its rounding to a float. *)
Definition normalise_min_max (val min_ max_ : Q) : Res Q :=
  if Qle_bool max_ min_ then Err (MaxNotAboveMin min_ max_)
  else if negb (Qle_bool min_ val && Qle_bool val max_) then Err (ValOutOfBounds val min_ max_)
  else Ok ((val - min_) / (max_ - min_)).


(** ** [_color/interpolation.py]: data *)

(** A trace is a sequence of numeric sequences.  The code reads it with
    [zip] over its unpacked items, so both a list of [(x, y)] points and
    a pair of coordinate sequences are values of this type. *)
Definition Trace : Type := list (list Q).
Definition Row : Type := list Trace.
Definition Densities : Type := list Row.

Definition ColorscaleInterpolants : Type := list (list Q).

Record InterpolationContext : Type := {
  densities : Densities;
  n_rows : Z;
  n_traces : Z;
  x_min : Q;
  x_max : Q
}.

(** [len(l)] as a Python [int]. *)
Definition len {A} (l : list A) : Z := Z.of_nat (List.length l).

(** [sum(len(row) for row in densities)]. *)
Definition sum_len {A} (rows : list (list A)) : Z :=
  fold_left Z.add (map len rows) 0%Z.

(** [InterpolationContext.from_densities].  The call passes its argument
    under the keyword [densities]; the one parameter of [get_xy_extrema]
    is named [arrays].  The items compared by [get_xy_extrema] are then
    the members of the traces, which [float] does not accept. *)
Definition from_densities (densities : Densities) : Res InterpolationContext :=
  ext <- call_keyword "get_xy_extrema" "arrays" get_xy_extrema "densities" densities ;;
  let '(a, b, c, d) := ext in
  x_min <- py_float a ;;
  x_max <- py_float b ;;
  _ <- py_float c ;;
  _ <- py_float d ;;
  Ok {| densities := densities;
        n_rows := len densities;
        n_traces := sum_len densities;
        x_min := x_min;
        x_max := x_max |}.

(** ** Colormode strategies *)

Definition _mul (a b : list Q) : list Q :=
  map (fun ab => fst ab * snd ab) (combine a b).

(** [enumerate(l)]. *)
Definition enumerate {A} (l : list A) : list (nat * A) :=
  combine (seq 0 (List.length l)) l.

(** [((n - 1) - i) / (n - 1)] on Python integers. *)
Definition index_position (n i : Z) : Res Q :=
  py_truediv (inject_Z ((n - 1) - i)) (inject_Z (n - 1)).

Definition _interpolate_row_index (ctx : InterpolationContext)
    : Res ColorscaleInterpolants :=
  mapM (fun ir : nat * Row =>
          v <- index_position (n_rows ctx) (Z.of_nat (fst ir)) ;;
          Ok (repeat v (List.length (snd ir))))
       (enumerate (densities ctx)).

(** The inner loop of [_interpolate_trace_index]: the counter [ith_trace]
    is threaded through. *)
Fixpoint trace_index_row (n : Z) (row : Row) (ith_trace : Z) : Res (list Q * Z) :=
  match row with
  | [] => Ok ([], ith_trace)
  | _ :: row' =>
      v <- index_position n ith_trace ;;
      r <- trace_index_row n row' (ith_trace + 1)%Z ;;
      Ok (v :: fst r, snd r)
  end.

Fixpoint trace_index_rows (n : Z) (rows : Densities) (ith_trace : Z)
    : Res ColorscaleInterpolants :=
  match rows with
  | [] => Ok []
  | row :: rows' =>
      r <- trace_index_row n row ith_trace ;;
      ps <- trace_index_rows n rows' (snd r) ;;
      Ok (fst r :: ps)
  end.

Definition _interpolate_trace_index (ctx : InterpolationContext)
    : Res ColorscaleInterpolants :=
  trace_index_rows (n_traces ctx) (densities ctx) 0%Z.

Definition _interpolate_trace_index_row_wise (ctx : InterpolationContext)
    : Res ColorscaleInterpolants :=
  mapM (fun row : Row =>
          mapM (fun ith_row_trace => index_position (len row) (Z.of_nat ith_row_trace))
               (seq 0 (List.length row)))
       (densities ctx).

(** [x, y = zip(...trace)] followed by [sum(_mul(x, y)) / sum(y)]: the
    expression both mean strategies evaluate for a trace.  Sums, products
    and the quotient are exact here, where the code rounds to floats. *)
Definition trace_mean (trace : Trace) : Res Q :=
  xy <- unpack2 (zip_star trace) ;;
  py_truediv (py_sum (_mul (fst xy) (snd xy))) (py_sum (snd xy)).

Definition _interpolate_mean_minmax (ctx : InterpolationContext)
    : Res ColorscaleInterpolants :=
  mapM (fun row : Row =>
          mapM (fun trace =>
                  m <- trace_mean trace ;;
                  normalise_min_max m (x_min ctx) (x_max ctx))
               row)
       (densities ctx).

Definition _interpolate_mean_means (ctx : InterpolationContext)
    : Res ColorscaleInterpolants :=
  means <- mapM (fun row : Row => mapM trace_mean row) (densities ctx) ;;
  row_mins <- mapM py_min means ;;
  min_mean <- py_min row_mins ;;
  row_maxs <- mapM py_max means ;;
  max_mean <- py_max row_maxs ;;
  mapM (fun row => mapM (fun mean => normalise_min_max mean min_mean max_mean) row) means.

Definition InterpolationFunc : Type := InterpolationContext -> Res ColorscaleInterpolants.

(** The dictionary keeps its keys in insertion order. *)
Definition SOLID_COLORMODE_MAPS : list (string * InterpolationFunc) :=
  [ ("row-index", _interpolate_row_index);
    ("trace-index", _interpolate_trace_index);
    ("trace-index-row-wise", _interpolate_trace_index_row_wise);
    ("mean-minmax", _interpolate_mean_minmax);
    ("mean-means", _interpolate_mean_means) ]%string.

Fixpoint dict_get {V} (d : list (string * V)) (k : string) : option V :=
  match d with
  | [] => None
  | (k', v) :: d' => if String.eqb k k' then Some v else dict_get d' k
  end.

(** [str(tuple(keys))] for string keys. *)
Fixpoint join (sep : string) (l : list string) : string :=
  match l with
  | [] => EmptyString
  | [s] => s
  | s :: l' => (s ++ sep ++ join sep l')%string
  end.

Definition quoted (s : string) : string := ("'" ++ s ++ "'")%string.

Definition tuple_repr (keys : list string) : string :=
  match keys with
  | [k] => ("(" ++ quoted k ++ ",)")%string
  | _ => ("(" ++ join ", " (map quoted keys) ++ ")")%string
  end.

Definition colormode_message (colormode : string) : string :=
  ("The colormode argument should be 'fillgradient' or one of the solid colormodes "
   ++ tuple_repr (map fst SOLID_COLORMODE_MAPS) ++ ", got " ++ colormode ++ " instead.")%string.

(** ** Colour interpolation and the orchestrator

    [to_rgb], [apply_alpha], [round_color] ([ridgeplot._color.utils]),
    [validate_and_coerce_colorscale] ([ridgeplot._color.colorscale]) and
    plotly's [find_intermediate_color] and [Fillgradient] live outside these
    two files: the code below takes the functions as parameters. *)

Section Engine.
Context {Color : Type} {ColorscaleArg : Type}.
Variable to_rgb : Color -> Res Color.
Variable find_intermediate_color : Color -> Color -> Q -> Res Color.
Variable apply_alpha : Color -> Q -> Res Color.
Variable round_color : Color -> nat -> Res Color.
Variable validate_and_coerce_colorscale : ColorscaleArg -> Res (list (Q * Color)).

Definition ColorScale : Type := list (Q * Color).

Definition interpolate_color (colorscale : ColorScale) (p : Q) : Res Color :=
  if negb (Qle_bool 0 p && Qle_bool p 1) then Err (PointOutsideUnit p)
  else
    let scale := map fst colorscale in
    let colors := map snd colorscale in
    if py_in p scale then
      i <- index_of p scale ;; item colors i
    else
      colors <- mapM to_rgb colors ;;
      ceil <- py_min (filter (fun s => gt s p) scale) ;;
      floor <- py_max (filter (fun s => lt s p) scale) ;;
      p_normalised <- normalise_min_max p floor ceil ;;
      i_floor <- index_of floor scale ;;
      lowcolor <- item colors i_floor ;;
      i_ceil <- index_of ceil scale ;;
      highcolor <- item colors i_ceil ;;
      find_intermediate_color lowcolor highcolor p_normalised.

(** [go.scatter.Fillgradient(colorscale=..., start=..., stop=..., type=...)]. *)
Record Fillgradient : Type := {
  fg_colorscale : ColorScale;
  fg_start : Q;
  fg_stop : Q;
  fg_type : string
}.

(** [dict(fillgradient=...)] or [dict(fillcolor=...)]. *)
Inductive FillSpec : Type :=
| fillgradient (fg : Fillgradient)
| fillcolor (c : Color).

Definition _get_fill_color (colorscale : ColorScale) (opacity : option Q) (p : Q)
    : Res Color :=
  fill_color <- interpolate_color colorscale p ;;
  fill_color <- match opacity with
                | Some alpha => apply_alpha fill_color alpha
                | None => Ok fill_color
                end ;;
  round_color fill_color 12.

(** The returned generator of generators is the list of rows of items;
    an item is computed, and may raise, when it is consumed.  The items of
    the gradient mode are plain values; a row of a solid mode ends with its
    first item that raises. *)
Definition compute_trace_colors (colorscale : ColorscaleArg) (colormode : string)
    (opacity : option Q) (interpolation_ctx : InterpolationContext)
    : Res (list (list (Res FillSpec))) :=
  colorscale <- validate_and_coerce_colorscale colorscale ;;
  colorscale <- match opacity with
                | Some alpha =>
                    mapM (fun vc : Q * Color =>
                            c <- apply_alpha (snd vc) alpha ;; Ok (fst vc, c))
                         colorscale
                | None => Ok colorscale
                end ;;
  if String.eqb colormode "fillgradient" then
    Ok (map (fun row : Row =>
               map (fun _ : Trace =>
                      Ok (fillgradient
                            {| fg_colorscale := colorscale;
                               fg_start := x_min interpolation_ctx;
                               fg_stop := x_max interpolation_ctx;
                               fg_type := "horizontal" |}))
                   row)
            (densities interpolation_ctx))
  else
    match dict_get SOLID_COLORMODE_MAPS colormode with
    | None => Err (InvalidColormode (colormode_message colormode))
    | Some interpolate_func =>
        interpolants <- interpolate_func interpolation_ctx ;;
        Ok (map (fun row : list Q =>
                   generate (fun p => c <- _get_fill_color colorscale opacity p ;;
                                      Ok (fillcolor c))
                            row)
                interpolants)
    end.

End Engine.

Arguments ColorScale Color : clear implicits.
Arguments Fillgradient Color : clear implicits.
Arguments FillSpec Color : clear implicits.

(** ** The colour helpers, from the specification *)

(** Modelled from the spec: the [Color] type of [ridgeplot._types] is
    missing.  A colour is an RGB(A) value that may carry an alpha channel;
    its string and tuple spellings are identified with this record. *)
Record RGBA : Type := {
  red : Q;
  green : Q;
  blue : Q;
  alpha : option Q
}.

Definition rgb (r g b : Q) : RGBA :=
  {| red := r; green := g; blue := b; alpha := None |}.

(** Modelled from the spec: [to_rgb] of [ridgeplot._color.utils] is missing.
    It converts a colour to the canonical RGB representation, which the
    record already is. *)
Definition to_rgb (c : RGBA) : Res RGBA := Ok c.

(** Modelled from the spec: plotly's [find_intermediate_color] is missing.
    It blends the two colours linearly in RGB space at the fraction
    [intermed]; the blend carries no alpha channel. *)
Definition find_intermediate_color (lowcolor highcolor : RGBA) (intermed : Q) : Res RGBA :=
  Ok (rgb (red lowcolor + intermed * (red highcolor - red lowcolor))
          (green lowcolor + intermed * (green highcolor - green lowcolor))
          (blue lowcolor + intermed * (blue highcolor - blue lowcolor))).

(** Modelled from the spec: [apply_alpha] of [ridgeplot._color.utils] is
    missing.  It rewrites the colour to carry the given alpha. *)
Definition apply_alpha (c : RGBA) (a : Q) : Res RGBA :=
  Ok {| red := red c; green := green c; blue := blue c; alpha := Some a |}.

(** Rounding to the nearest integer, ties to the even one, as [round]. *)
Definition round_half_even (q : Q) : Z :=
  let f := Qfloor q in
  match Qcompare (q - inject_Z f) (1 # 2) with
  | Lt => f
  | Gt => (f + 1)%Z
  | Eq => if Z.even f then f else (f + 1)%Z
  end.

(** [round(q, ndigits)]. *)
Definition round_ndigits (ndigits : nat) (q : Q) : Q :=
  inject_Z (round_half_even (q * inject_Z (10 ^ Z.of_nat ndigits)))
  / inject_Z (10 ^ Z.of_nat ndigits).

(** The colour with every numeric channel rounded. *)
Definition round_rgba (ndigits : nat) (c : RGBA) : RGBA :=
  {| red := round_ndigits ndigits (red c);
     green := round_ndigits ndigits (green c);
     blue := round_ndigits ndigits (blue c);
     alpha := option_map (round_ndigits ndigits) (alpha c) |}.

(** Modelled from the spec: [round_color] of [ridgeplot._color.utils] is
    missing.  It rounds the numeric channels of the colour to the given
    number of decimal digits. *)
Definition round_color (c : RGBA) (ndigits : nat) : Res RGBA :=
  Ok (round_rgba ndigits c).

(** The ColorScale invariant: positions strictly ascending, the first one
    0 and the last one 1. *)
Fixpoint ascending (scale : list Q) : bool :=
  match scale with
  | a :: (b :: _) as scale' => Qltb a b && ascending scale'
  | _ => true
  end.

Definition canonicalb {Color} (colorscale : ColorScale Color) : bool :=
  let scale := map fst colorscale in
  ascending scale
  && match scale with s0 :: _ => Qeq_bool s0 0 | [] => false end
  && Qeq_bool (last scale 0) 1.

(** Modelled from the spec: [validate_and_coerce_colorscale] of
    [ridgeplot._color.colorscale] is missing.  This is its behaviour on an
    explicit colour scale: one that satisfies the ColorScale invariant is
    in canonical form already and is returned as it is.  Named palettes,
    plain colour collections and the default are not modelled. *)
Definition validate_and_coerce_colorscale (colorscale : ColorScale RGBA)
    : Res (ColorScale RGBA) :=
  if canonicalb colorscale then Ok colorscale
  else Err (ColorError "invalid colorscale").

(** The engine with the modelled helpers. *)
Definition interpolate_color_rgba : ColorScale RGBA -> Q -> Res RGBA :=
  interpolate_color to_rgb find_intermediate_color.

Definition compute_trace_colors_rgba
    : ColorScale RGBA -> string -> option Q -> InterpolationContext
      -> Res (list (list (Res (FillSpec RGBA)))) :=
  compute_trace_colors to_rgb find_intermediate_color apply_alpha round_color
    validate_and_coerce_colorscale.

(** ** Concrete data *)

(** [[[([0,1,2],[1,1,1])]]]: one row, one trace given as the pair of its
    coordinate sequences. *)
Definition densities_pair : Densities := [[ [[0; 1; 2]; [1; 1; 1]] ]].

(** The same curve as a sequence of (x, y) points. *)
Definition densities_points : Densities := [[ [[0; 1]; [1; 1]; [2; 1]] ]].

Definition ctx_of (d : Densities) : InterpolationContext :=
  {| densities := d; n_rows := 1; n_traces := 1; x_min := 0; x_max := 2 |}.

Definition black_white : ColorScale RGBA :=
  [ (0, rgb 0 0 0); (1, rgb 255 255 255) ].

(** [v] lies between [a] and [b], whichever is the smaller. *)
Definition between (a b v : Q) : Prop := a <= v <= b \/ b <= v <= a.

(** Each RGB channel of [c] lies between that channel of [lo] and of [hi]. *)
Definition within (lo hi c : RGBA) : Prop :=
  between (red lo) (red hi) (red c)
  /\ between (green lo) (green hi) (green c)
  /\ between (blue lo) (blue hi) (blue c).

(** The RGB channels of [c] are written with at most [ndigits] decimals. *)
Definition has_decimals (ndigits : nat) (c : RGBA) : Prop :=
  round_ndigits ndigits (red c) == red c
  /\ round_ndigits ndigits (green c) == green c
  /\ round_ndigits ndigits (blue c) == blue c.

(** A scale whose two stops have the red channel 0.1234567890123, of
    thirteen decimals. *)
Definition thirteen_decimals : ColorScale RGBA :=
  [ (0, rgb (1234567890123 # 10000000000000) 0 0);
    (1, rgb (1234567890123 # 10000000000000) 0 0) ].

(** [lo] and [hi] are the least and the greatest item of [l]. *)
Definition is_extrema (lo hi : Q) (l : list Q) : Prop :=
  In lo l /\ In hi l /\ forall v, In v l -> lo <= v <= hi.

(** The x (index 0) and y (index 1) members of all arrays, in order. *)
Definition members (i : nat) (arrays : list (list (list Q))) : list Q :=
  concat (map (fun array => nth i array []) arrays).

(** The call did not end in the invalid-colormode error. *)
Definition not_invalid_colormode {A} (r : Res A) : Prop :=
  forall message, r <> Err (InvalidColormode message).

(** No two stops of the colour scale have the same position. *)
Definition unique_positions {Color} (colorscale : ColorScale Color) : Prop :=
  forall i j a b,
    nth_error colorscale i = Some a -> nth_error colorscale j = Some b ->
    fst a == fst b -> i = j.

(** The value of [((n - 1) - i) / (n - 1)] when [n - 1] is not zero. *)
Definition position_of (n i : Z) : Q := inject_Z ((n - 1) - i) / inject_Z (n - 1).

(** The positions of [m] consecutive traces, the first of index [k]. *)
Fixpoint positions (n k : Z) (m : nat) : list Q :=
  match m with
  | O => []
  | S m' => position_of n k :: positions n (k + 1) m'
  end.

(** A trace sampled at the points [(x, y)] of [pts], as the sequence of
    its points. *)
Definition Points : Type := list (Q * Q).

Definition trace_of_points (pts : Points) : Trace :=
  map (fun xy => [fst xy; snd xy]) pts.

(** The y-weighted mean of the x-coordinates, in the words of the
    specification: the sum of the [x * y] over the sum of the [y]. *)
Definition weighted_mean (pts : Points) : Q :=
  py_sum (map (fun xy => fst xy * snd xy) pts) / py_sum (map snd pts).

(** ** [_utils.py]: [LazyMapping]

    A call that may raise returns [inl] of the exception; the type [E] of
    the exceptions is that of the loader and of the mapping it returns.
    The loader is a callable with effects: it is run in a world [W], which
    it may change. *)

(** The five methods of the loaded mapping that [LazyMapping] forwards to. *)
Class MappingOps (M KT VT E : Type) : Type := {
  getitem : M -> KT -> E + VT;
  iter : M -> list KT;
  size : M -> nat;
  str : M -> string;
  repr : M -> string
}.

Section LazyMappingModel.
Context {M KT VT E W : Type} `{MappingOps M KT VT E}.

Record LazyMapping : Type := {
  _loader : W -> (E + M) * W;
  _inner_mapping : option M
}.

Definition __init__ (loader : W -> (E + M) * W) : LazyMapping :=
  {| _loader := loader; _inner_mapping := None |}.

(** The property [_mapping]: the loader is called when nothing is stored
    yet, and what it returns is stored. *)
Definition _mapping (self : LazyMapping) (w : W) : (E + M) * LazyMapping * W :=
  match _inner_mapping self with
  | Some m => (inr m, self, w)
  | None =>
      let (r, w') := _loader self w in
      match r with
      | inr m => (inr m, {| _loader := _loader self; _inner_mapping := Some m |}, w')
      | inl e => (inl e, self, w')
      end
  end.

(** [self._mapping.method(...)]. *)
Definition forward {A} (method : M -> E + A) (self : LazyMapping) (w : W)
    : (E + A) * LazyMapping * W :=
  let '(r, self', w') := _mapping self w in
  (match r with inr m => method m | inl e => inl e end, self', w').

Definition __getitem__ (self : LazyMapping) (item : KT) (w : W)
    : (E + VT) * LazyMapping * W :=
  forward (fun m => getitem m item) self w.

Definition __iter__ (self : LazyMapping) (w : W) : (E + list KT) * LazyMapping * W :=
  forward (fun m => inr (iter m)) self w.

Definition __len__ (self : LazyMapping) (w : W) : (E + nat) * LazyMapping * W :=
  forward (fun m => inr (size m)) self w.

Definition __str__ (self : LazyMapping) (w : W) : (E + string) * LazyMapping * W :=
  forward (fun m => inr (str m)) self w.

Definition __repr__ (self : LazyMapping) (w : W) : (E + string) * LazyMapping * W :=
  forward (fun m => inr (repr m)) self w.

(** A client of the mapping: the calls it makes, and what it gets back. *)
Inductive request : Type :=
| GetItem (item : KT)
| Iter
| Len
| Str
| Repr.

Inductive response : Type :=
| Value (v : VT)
| Keys (l : list KT)
| Size (n : nat)
| Text (s : string)
| Raised (e : E).

Definition respond {A} (wrap : A -> response) (r : E + A) : response :=
  match r with inr a => wrap a | inl e => Raised e end.

Definition serve (self : LazyMapping) (rq : request) (w : W)
    : response * LazyMapping * W :=
  match rq with
  | GetItem item => let '(r, s, w') := __getitem__ self item w in (respond Value r, s, w')
  | Iter => let '(r, s, w') := __iter__ self w in (respond Keys r, s, w')
  | Len => let '(r, s, w') := __len__ self w in (respond Size r, s, w')
  | Str => let '(r, s, w') := __str__ self w in (respond Text r, s, w')
  | Repr => let '(r, s, w') := __repr__ self w in (respond Text r, s, w')
  end.

Fixpoint run (self : LazyMapping) (rqs : list request) (w : W)
    : list response * LazyMapping * W :=
  match rqs with
  | [] => ([], self, w)
  | rq :: rqs' =>
      let '(r, self', w') := serve self rq w in
      let '(rs, self'', w'') := run self' rqs' w' in
      (r :: rs, self'', w'')
  end.

(** The same call made on the mapping [m] itself. *)
Definition answer (m : M) (rq : request) : response :=
  match rq with
  | GetItem item => respond Value (getitem m item)
  | Iter => Keys (iter m)
  | Len => Size (size m)
  | Str => Text (str m)
  | Repr => Text (repr m)
  end.

End LazyMappingModel.

Arguments LazyMapping M E W : clear implicits.
Arguments request KT : clear implicits.
Arguments response KT VT E : clear implicits.

(** A dictionary from strings to numbers, for examples: an association
    list, whose lookup raises [KeyError] on an absent key. *)
Inductive dict_exn : Type :=
| KeyError (key : string)
| LoadFailed.

#[export] Instance MappingOps_dict : MappingOps (list (string * Z)) string Z dict_exn := {
  getitem := fun m k => match dict_get m k with Some v => inr v | None => inl (KeyError k) end;
  iter := fun m => map fst m;
  size := fun m => List.length m;
  str := fun m => "{...}"%string;
  repr := fun m => "{...}"%string
}.

(** The [i]-th member of every item of a trace. *)
Definition column (i : nat) (trace : Trace) : list Q :=
  map (fun pt => nth i pt 0) trace.

(** A trace that [x, y = zip(...)] can unpack: it has an item, every item
    has two members or more, and some item has exactly two. *)
Definition unpacks (trace : Trace) : Prop :=
  trace <> []
  /\ Forall (fun pt => (2 <= List.length pt)%nat) trace
  /\ Exists (fun pt => List.length pt = 2%nat) trace.

(** * Properties *)

(** ** Comparisons and the error monad *)

Lemma Qltb_lt (x y : Q) : Qltb x y = true <-> x < y.
Proof.
  unfold Qltb. rewrite negb_true_iff. split; intro Hxy.
  - apply Qnot_le_lt. intro Hle. apply Qle_bool_iff in Hle. congruence.
  - destruct (Qle_bool y x) eqn:E; trivial.
    apply Qle_bool_iff in E. exfalso. apply (Qlt_not_le _ _ Hxy E).
Qed.

Lemma Qltb_ge (x y : Q) : Qltb x y = false <-> y <= x.
Proof.
  unfold Qltb. rewrite negb_false_iff. apply Qle_bool_iff.
Qed.

Lemma Qle_bool_false (x y : Q) : Qle_bool x y = false <-> y < x.
Proof.
  rewrite <- Qltb_lt. unfold Qltb. rewrite negb_true_iff. reflexivity.
Qed.

Lemma Qeq_bool_false (x y : Q) : Qeq_bool x y = false <-> ~ x == y.
Proof.
  split.
  - intros E Hxy. apply Qeq_bool_iff in Hxy. congruence.
  - intro Hne. destruct (Qeq_bool x y) eqn:E; trivial.
    apply Qeq_bool_iff in E. contradiction.
Qed.

Lemma mapM_pure {A B} (f : A -> Res B) (g : A -> B) (l : list A) :
  (forall a, In a l -> f a = Ok (g a)) -> mapM f l = Ok (map g l).
Proof.
  induction l as [| a l IH]; intro Hf; simpl.
  - reflexivity.
  - rewrite (Hf a (or_introl eq_refl)). simpl.
    rewrite IH by (intros b Hb; apply Hf; right; exact Hb).
    reflexivity.
Qed.

Lemma mapM_length {A B} (f : A -> Res B) (l : list A) (bs : list B) :
  mapM f l = Ok bs -> List.length bs = List.length l.
Proof.
  revert bs. induction l as [| a l IH]; simpl; intros bs Hbs.
  - injection Hbs as <-. reflexivity.
  - destruct (f a) as [b | e]; simpl in Hbs; [| discriminate].
    destruct (mapM f l) as [bs' | e]; simpl in Hbs; [| discriminate].
    injection Hbs as <-. simpl. f_equal. apply IH. reflexivity.
Qed.

(** ** [min] and [max] *)

Lemma min_from_cons (a b : Q) (l : list Q) :
  min_from a (b :: l) = min_from (if Qltb b a then b else a) l.
Proof. reflexivity. Qed.

Lemma max_from_cons (a b : Q) (l : list Q) :
  max_from a (b :: l) = max_from (if Qltb a b then b else a) l.
Proof. reflexivity. Qed.

Lemma min_from_spec (l : list Q) (a : Q) :
  (min_from a l = a \/ In (min_from a l) l)
  /\ min_from a l <= a
  /\ forall v, In v l -> min_from a l <= v.
Proof.
  revert a. induction l as [| b l IH]; intro a.
  - simpl. repeat split; [left; reflexivity | apply Qle_refl | intros v []].
  - rewrite min_from_cons.
    destruct (IH (if Qltb b a then b else a)) as (Hin & Hle & Hall).
    destruct (Qltb b a) eqn:E.
    + apply Qltb_lt in E. repeat split.
      * destruct Hin as [-> | Hin]; right; [left; reflexivity | right; exact Hin].
      * apply Qle_trans with b; [exact Hle | apply Qlt_le_weak; exact E].
      * intros v [<- | Hv]; [exact Hle | apply Hall; exact Hv].
    + apply Qltb_ge in E. repeat split.
      * destruct Hin as [-> | Hin]; [left; reflexivity | right; right; exact Hin].
      * exact Hle.
      * intros v [<- | Hv]; [apply Qle_trans with a; assumption | apply Hall; exact Hv].
Qed.

Lemma max_from_spec (l : list Q) (a : Q) :
  (max_from a l = a \/ In (max_from a l) l)
  /\ a <= max_from a l
  /\ forall v, In v l -> v <= max_from a l.
Proof.
  revert a. induction l as [| b l IH]; intro a.
  - simpl. repeat split; [left; reflexivity | apply Qle_refl | intros v []].
  - rewrite max_from_cons.
    destruct (IH (if Qltb a b then b else a)) as (Hin & Hle & Hall).
    destruct (Qltb a b) eqn:E.
    + apply Qltb_lt in E. repeat split.
      * destruct Hin as [-> | Hin]; right; [left; reflexivity | right; exact Hin].
      * apply Qle_trans with b; [apply Qlt_le_weak; exact E | exact Hle].
      * intros v [<- | Hv]; [exact Hle | apply Hall; exact Hv].
    + apply Qltb_ge in E. repeat split.
      * destruct Hin as [-> | Hin]; [left; reflexivity | right; right; exact Hin].
      * exact Hle.
      * intros v [<- | Hv]; [apply Qle_trans with a; assumption | apply Hall; exact Hv].
Qed.

Lemma min_max_extrema (a : Q) (l : list Q) :
  is_extrema (min_from a l) (max_from a l) (a :: l).
Proof.
  destruct (min_from_spec l a) as (Hin & Hle & Hall).
  destruct (max_from_spec l a) as (Hin' & Hle' & Hall').
  split; [| split].
  - destruct Hin as [-> | Hin]; [left; reflexivity | right; exact Hin].
  - destruct Hin' as [-> | Hin']; [left; reflexivity | right; exact Hin'].
  - intros v [<- | Hv]; split;
      [exact Hle | exact Hle' | apply Hall; exact Hv | apply Hall'; exact Hv].
Qed.

(** ** [get_xy_extrema] *)

Lemma check_array_ok (array : list (list Q)) :
  List.length array = 2%nat -> ~ In [] array ->
  check_array array = Ok (nth 0 array [], nth 1 array []).
Proof.
  intros Hlen Hne.
  destruct array as [| a0 [| a1 [| a2 array]]]; try discriminate Hlen.
  simpl. destruct a0 as [| x a0]; [exfalso; apply Hne; left; reflexivity |].
  destruct a1 as [| y a1]; [exfalso; apply Hne; right; left; reflexivity |].
  reflexivity.
Qed.

Lemma check_array_err (array : list (list Q)) :
  List.length array <> 2%nat \/ In [] array -> is_err (check_array array) = true.
Proof.
  intros [Hlen | Hin].
  - destruct array as [| a0 [| a1 [| a2 array]]]; try reflexivity.
    exfalso. apply Hlen. reflexivity.
  - destruct array as [| a0 [| a1 [| a2 array]]]; try reflexivity.
    destruct Hin as [-> | [-> | []]]; [reflexivity |].
    simpl. destruct a0; reflexivity.
Qed.

Lemma collect_xy_ok (arrays : list (list (list Q))) (x y : list Q) :
  Forall (fun a => List.length a = 2%nat /\ ~ In [] a) arrays ->
  collect_xy arrays x y = Ok (x ++ members 0 arrays, y ++ members 1 arrays).
Proof.
  intro Hall. revert x y.
  induction Hall as [| array arrays [Hlen Hne] _ IH]; intros x y; simpl.
  - unfold members. simpl. rewrite !app_nil_r. reflexivity.
  - rewrite (check_array_ok array Hlen Hne). simpl. rewrite IH.
    unfold members. simpl. rewrite !app_assoc. reflexivity.
Qed.

Lemma collect_xy_err (arrays : list (list (list Q))) (x y : list Q) :
  Exists (fun a => List.length a <> 2%nat \/ In [] a) arrays ->
  is_err (collect_xy arrays x y) = true.
Proof.
  intro Hex. revert x y.
  induction Hex as [array arrays Hbad | array arrays _ IH]; intros x y; simpl.
  - apply check_array_err in Hbad.
    destruct (check_array array); [discriminate | reflexivity].
  - destruct (check_array array); [apply IH | reflexivity].
Qed.

Lemma members_nonempty (i : nat) (arrays : list (list (list Q))) :
  (i < 2)%nat -> arrays <> [] ->
  Forall (fun a => List.length a = 2%nat /\ ~ In [] a) arrays ->
  members i arrays <> [].
Proof.
  intros Hi Hne Hall. destruct arrays as [| array arrays]; [contradiction |].
  inversion Hall as [| ? ? [Hlen Hmem] _]; subst.
  destruct array as [| a0 [| a1 [| a2 array]]]; try discriminate Hlen.
  unfold members. simpl.
  destruct i as [| [| i]]; [| | lia].
  - destruct a0; [exfalso; apply Hmem; left; reflexivity | discriminate].
  - destruct a1; [exfalso; apply Hmem; right; left; reflexivity | discriminate].
Qed.

Lemma get_xy_extrema_ok (arrays : list (list (list Q))) :
  arrays <> [] ->
  Forall (fun a => List.length a = 2%nat /\ ~ In [] a) arrays ->
  exists x_min x_max y_min y_max,
    get_xy_extrema arrays = Ok (x_min, x_max, y_min, y_max)
    /\ is_extrema x_min x_max (members 0 arrays)
    /\ is_extrema y_min y_max (members 1 arrays).
Proof.
  intros Hne Hall. unfold get_xy_extrema.
  rewrite (collect_xy_ok arrays [] [] Hall). simpl.
  pose proof (members_nonempty 0 arrays ltac:(lia) Hne Hall) as Hx.
  pose proof (members_nonempty 1 arrays ltac:(lia) Hne Hall) as Hy.
  destruct (members 0 arrays) as [| x0 xs]; [contradiction |].
  destruct (members 1 arrays) as [| y0 ys]; [contradiction |].
  simpl. exists (min_from x0 xs), (max_from x0 xs), (min_from y0 ys), (max_from y0 ys).
  split; [reflexivity |]. split; apply min_max_extrema.
Qed.

Lemma Forall_or_Exists_shape (arrays : list (list (list Q))) :
  Forall (fun a => List.length a = 2%nat /\ ~ In [] a) arrays
  \/ Exists (fun a => List.length a <> 2%nat \/ In [] a) arrays.
Proof.
  induction arrays as [| array arrays IH].
  - left. constructor.
  - assert (Hdec : (List.length array = 2%nat /\ ~ In [] array)
                   \/ (List.length array <> 2%nat \/ In [] array)).
    { destruct (Nat.eq_dec (List.length array) 2) as [Hlen | Hlen]; [| right; left; exact Hlen].
      destruct (existsb is_nil array) eqn:E.
      - right. right. apply existsb_exists in E. destruct E as (a & Ha & Hnil).
        destruct a; [exact Ha | discriminate].
      - left. split; [exact Hlen |]. intro Hin.
        assert (existsb is_nil array = true) by (apply existsb_exists; exists []; auto).
        congruence. }
    destruct Hdec as [Hgood | Hbad]; [| right; left; exact Hbad].
    destruct IH as [IH | IH]; [left; constructor; assumption | right; right; exact IH].
Qed.

(** C10. [get_xy_extrema] never compares the lengths of the x and the y
    sequence of an array.  It raises exactly when the collection is empty,
    some array has not exactly two members, or some member sequence is
    empty; on every other collection, of equal or of different x and y
    lengths, it returns the least and greatest x and the least and
    greatest y over all arrays. *)
Theorem get_xy_extrema_no_length_check (arrays : list (list (list Q))) :
  (is_err (get_xy_extrema arrays) = true <->
     arrays = []
     \/ Exists (fun a => List.length a <> 2%nat) arrays
     \/ Exists (fun a => In [] a) arrays)
  /\ (arrays <> [] ->
      Forall (fun a => List.length a = 2%nat /\ ~ In [] a) arrays ->
      exists x_min x_max y_min y_max,
        get_xy_extrema arrays = Ok (x_min, x_max, y_min, y_max)
        /\ is_extrema x_min x_max (members 0 arrays)
        /\ is_extrema y_min y_max (members 1 arrays)).
Proof.
  split; [| apply get_xy_extrema_ok].
  split.
  - intro Herr.
    destruct arrays as [| array arrays]; [left; reflexivity | right].
    destruct (Forall_or_Exists_shape (array :: arrays)) as [Hall | Hex].
    + destruct (get_xy_extrema_ok (array :: arrays) ltac:(discriminate) Hall)
        as (a & b & c & d & Hok & _).
      rewrite Hok in Herr. discriminate.
    + apply Exists_exists in Hex. destruct Hex as (a & Ha & [Hlen | Hnil]).
      * left. apply Exists_exists. exists a. split; assumption.
      * right. apply Exists_exists. exists a. split; assumption.
  - intros [-> | Hex]; [reflexivity |].
    assert (Hbad : Exists (fun a => List.length a <> 2%nat \/ In [] a) arrays).
    { destruct Hex as [Hex | Hex]; apply Exists_exists in Hex;
        destruct Hex as (a & Ha & Hp); apply Exists_exists; exists a; auto. }
    unfold get_xy_extrema.
    pose proof (collect_xy_err arrays [] [] Hbad) as Hc.
    destruct (collect_xy arrays [] []); [discriminate | reflexivity].
Qed.

(** An array whose x sequence has three items and whose y sequence has
    two, next to one with one x and three y: the extrema are returned. *)
Lemma get_xy_extrema_no_length_check_witness :
  get_xy_extrema [ [[0; 1; 2]; [1; 1]]; [[5]; [7; -3; 2]] ] = Ok (0, 5, -3, 7)
  /\ exists x_min x_max y_min y_max,
       get_xy_extrema [ [[0; 1; 2]; [1; 1]]; [[5]; [7; -3; 2]] ]
       = Ok (x_min, x_max, y_min, y_max)
       /\ is_extrema x_min x_max (members 0 [ [[0; 1; 2]; [1; 1]]; [[5]; [7; -3; 2]] ])
       /\ is_extrema y_min y_max (members 1 [ [[0; 1; 2]; [1; 1]]; [[5]; [7; -3; 2]] ]).
Proof.
  split; [reflexivity |].
  apply (proj2 (get_xy_extrema_no_length_check [ [[0; 1; 2]; [1; 1]]; [[5]; [7; -3; 2]] ])).
  - discriminate.
  - repeat constructor; simpl; intuition discriminate.
Defined.

(** ** [InterpolationContext.from_densities] *)

(** C1. [from_densities] passes the dataset to [get_xy_extrema] under the
    keyword [densities], which that function does not have: on every
    dataset the call raises a [TypeError] and no context is returned. *)
Theorem from_densities_raises (densities : Densities) :
  from_densities densities = Err (UnexpectedKeyword "get_xy_extrema" "densities")
  /\ kind_of (UnexpectedKeyword "get_xy_extrema" "densities") = TypeError.
Proof. split; reflexivity. Qed.

(** Bound to its parameter, the dataset is read by [get_xy_extrema] as a
    collection of arrays, one per row: a row of one trace is not a 2D
    array. *)
Lemma get_xy_extrema_on_rows :
  get_xy_extrema densities_pair = Err (Not2DArray 1)
  /\ get_xy_extrema densities_points = Err (Not2DArray 1).
Proof. split; reflexivity. Qed.

(** ** The end-to-end example *)

(** C2, as stated: on the trace given as a pair of coordinate sequences no
    context can be derived, and with the context of the stated values the
    strategy cannot unpack the three columns of the trace into [x, y]. *)
Lemma mean_minmax_pair_layout_raises :
  from_densities densities_pair = Err (UnexpectedKeyword "get_xy_extrema" "densities")
  /\ _interpolate_mean_minmax (ctx_of densities_pair) = Err (UnpackMismatch 2 3)
  /\ compute_trace_colors_rgba black_white "mean-minmax" None (ctx_of densities_pair)
     = Err (UnpackMismatch 2 3).
Proof. repeat split; reflexivity. Qed.

(** C2, amended: the trace given as the sequence of its points, with a
    context holding one row, one trace and the x-extrema (0, 2).  The
    weighted mean is 1, the interpolant 1/2, and the one fill
    specification has the colour rgb(127.5, 127.5, 127.5). *)
Theorem mean_minmax_end_to_end :
  exists m p c,
    trace_mean [[0; 1]; [1; 1]; [2; 1]] = Ok m /\ m == 1
    /\ _interpolate_mean_minmax (ctx_of densities_points) = Ok [[p]] /\ p == 1 # 2
    /\ compute_trace_colors_rgba black_white "mean-minmax" None (ctx_of densities_points)
       = Ok [[Ok (fillcolor c)]]
    /\ red c == 255 # 2 /\ green c == 255 # 2 /\ blue c == 255 # 2
    /\ alpha c = None.
Proof.
  eexists. eexists. eexists.
  split; [vm_compute; reflexivity |].
  split; [reflexivity |].
  split; [vm_compute; reflexivity |].
  split; [reflexivity |].
  split; [vm_compute; reflexivity |].
  repeat split.
Qed.

(** ** The colormode check *)

Lemma nic_ok {A} (a : A) : not_invalid_colormode (Ok a).
Proof. intros m; discriminate. Qed.

Lemma nic_bind {A B} (r : Res A) (k : A -> Res B) :
  not_invalid_colormode r -> (forall a, not_invalid_colormode (k a)) ->
  not_invalid_colormode (bind r k).
Proof.
  intros Hr Hk m. destruct r as [a | e]; simpl.
  - apply Hk.
  - intro E. apply (Hr m). injection E as ->. reflexivity.
Qed.

Lemma nic_mapM {A B} (f : A -> Res B) (l : list A) :
  (forall a, not_invalid_colormode (f a)) -> not_invalid_colormode (mapM f l).
Proof.
  intro Hf. induction l as [| a l IH]; simpl.
  - apply nic_ok.
  - apply nic_bind; [apply Hf |]. intro b.
    apply nic_bind; [exact IH |]. intro bs. apply nic_ok.
Qed.

Lemma nic_truediv (a b : Q) : not_invalid_colormode (py_truediv a b).
Proof. unfold py_truediv. intro m. destruct (Qeq_bool b 0); discriminate. Qed.

Lemma nic_normalise (val min_ max_ : Q) :
  not_invalid_colormode (normalise_min_max val min_ max_).
Proof.
  unfold normalise_min_max. intro m.
  destruct (Qle_bool max_ min_); [discriminate |].
  destruct (negb _); discriminate.
Qed.

Lemma nic_min (l : list Q) : not_invalid_colormode (py_min l).
Proof. intro m. destruct l; discriminate. Qed.

Lemma nic_max (l : list Q) : not_invalid_colormode (py_max l).
Proof. intro m. destruct l; discriminate. Qed.

Lemma nic_trace_mean (trace : Trace) : not_invalid_colormode (trace_mean trace).
Proof.
  unfold trace_mean. apply nic_bind.
  - intro m. unfold unpack2. destruct (zip_star trace) as [| x [| y [| z l]]]; discriminate.
  - intro xy. apply nic_truediv.
Qed.

Lemma nic_trace_index_row (n : Z) (row : Row) (k : Z) :
  not_invalid_colormode (trace_index_row n row k).
Proof.
  revert k. induction row as [| t row IH]; intro k; simpl.
  - apply nic_ok.
  - apply nic_bind; [apply nic_truediv |]. intro v.
    apply nic_bind; [apply IH |]. intro r. apply nic_ok.
Qed.

Lemma nic_trace_index_rows (n : Z) (rows : Densities) (k : Z) :
  not_invalid_colormode (trace_index_rows n rows k).
Proof.
  revert k. induction rows as [| row rows IH]; intro k; simpl.
  - apply nic_ok.
  - apply nic_bind; [apply nic_trace_index_row |]. intro r.
    apply nic_bind; [apply IH |]. intro ps. apply nic_ok.
Qed.

(** No strategy of the table raises the invalid-colormode error. *)
Lemma nic_strategies (k : string) (f : InterpolationFunc) (ctx : InterpolationContext) :
  dict_get SOLID_COLORMODE_MAPS k = Some f -> not_invalid_colormode (f ctx).
Proof.
  unfold SOLID_COLORMODE_MAPS, dict_get.
  repeat match goal with
         | |- (if ?b then _ else _) = _ -> _ => destruct b
         end; intro E; try discriminate E; injection E as <-.
  - unfold _interpolate_row_index. apply nic_mapM. intro ir.
    apply nic_bind; [apply nic_truediv | intro; apply nic_ok].
  - apply nic_trace_index_rows.
  - unfold _interpolate_trace_index_row_wise. apply nic_mapM. intro row.
    apply nic_mapM. intro i. apply nic_truediv.
  - unfold _interpolate_mean_minmax. apply nic_mapM. intro row.
    apply nic_mapM. intro t.
    apply nic_bind; [apply nic_trace_mean | intro; apply nic_normalise].
  - unfold _interpolate_mean_means.
    apply nic_bind; [apply nic_mapM; intro; apply nic_mapM; apply nic_trace_mean |].
    intro means. apply nic_bind; [apply nic_mapM; apply nic_min |].
    intro mins. apply nic_bind; [apply nic_min |].
    intro lo. apply nic_bind; [apply nic_mapM; apply nic_max |].
    intro maxs. apply nic_bind; [apply nic_max |].
    intro hi. apply nic_mapM. intro row. apply nic_mapM. intro m. apply nic_normalise.
Qed.

Lemma dict_get_absent {V} (d : list (string * V)) (k : string) :
  ~ In k (map fst d) -> dict_get d k = None.
Proof.
  induction d as [| [k' v] d IH]; simpl; intro Hk.
  - reflexivity.
  - destruct (String.eqb k k') eqn:E.
    + apply String.eqb_eq in E. exfalso. apply Hk. left. symmetry. exact E.
    + apply IH. intro Hin. apply Hk. right. exact Hin.
Qed.

Lemma dict_get_present {V} (d : list (string * V)) (k : string) :
  In k (map fst d) -> exists v, dict_get d k = Some v.
Proof.
  induction d as [| [k' v] d IH]; simpl; intro Hk.
  - contradiction.
  - destruct (String.eqb k k') eqn:E.
    + exists v. reflexivity.
    + apply IH. destruct Hk as [Hk | Hk]; [| exact Hk].
      apply String.eqb_neq in E. congruence.
Qed.

Lemma mapM_total {A B} (f : A -> Res B) (l : list A) :
  (forall a, In a l -> exists b, f a = Ok b) -> exists bs, mapM f l = Ok bs.
Proof.
  induction l as [| a l IH]; intro Hf; simpl.
  - exists []. reflexivity.
  - destruct (Hf a (or_introl eq_refl)) as (b & ->).
    destruct IH as (bs & ->); [intros a' Ha'; apply Hf; right; exact Ha' |].
    simpl. exists (b :: bs). reflexivity.
Qed.

Section ColormodeCheck.
Context {Color ColorscaleArg : Type}.
Variable to_rgb' : Color -> Res Color.
Variable blend : Color -> Color -> Q -> Res Color.
Variable with_alpha : Color -> Q -> Res Color.
Variable round' : Color -> nat -> Res Color.
Variable validate : ColorscaleArg -> Res (ColorScale Color).

(** C9. With a colorscale that validates and an alpha helper that does not
    fail, a colormode that is neither ["fillgradient"] nor a key of the
    strategy table makes [compute_trace_colors] raise the [ValueError]
    whose message lists ['fillgradient'] and the five solid colormodes;
    for each of the six recognized names that error is not raised. *)
Theorem compute_trace_colors_colormode_check
    (arg : ColorscaleArg) (cs : ColorScale Color) (colormode : string)
    (opacity : option Q) (ctx : InterpolationContext) :
  validate arg = Ok cs ->
  (forall c a, exists c', with_alpha c a = Ok c') ->
  (colormode <> "fillgradient"%string ->
   ~ In colormode ["row-index"; "trace-index"; "trace-index-row-wise";
                   "mean-minmax"; "mean-means"]%string ->
   compute_trace_colors to_rgb' blend with_alpha round' validate arg colormode opacity ctx
   = Err (InvalidColormode
            ("The colormode argument should be 'fillgradient' or one of the solid colormodes "
             ++ "('row-index', 'trace-index', 'trace-index-row-wise', 'mean-minmax', 'mean-means')"
             ++ ", got " ++ colormode ++ " instead."))
     /\ kind_of (InvalidColormode (colormode_message colormode)) = ValueError)
  /\ (In colormode ["fillgradient"; "row-index"; "trace-index"; "trace-index-row-wise";
                    "mean-minmax"; "mean-means"]%string ->
      not_invalid_colormode
        (compute_trace_colors to_rgb' blend with_alpha round' validate arg colormode
           opacity ctx)).
Proof.
  intros Hvalid Halpha.
  assert (Hstage : exists cs',
             match opacity with
             | Some a => mapM (fun vc : Q * Color =>
                                 c <- with_alpha (snd vc) a ;; Ok (fst vc, c)) cs
             | None => Ok cs
             end = Ok cs').
  { destruct opacity as [a |]; [| exists cs; reflexivity].
    apply mapM_total. intros [v c] _. simpl.
    destruct (Halpha c a) as (c' & ->). simpl. eexists. reflexivity. }
  destruct Hstage as (cs' & Hstage).
  unfold compute_trace_colors. rewrite Hvalid. cbn [bind].
  destruct opacity as [a |]; [rewrite Hstage |]; cbn [bind]; clear Hstage.
  all: split.
  all: try (intros Hfg Hsolid;
            destruct (String.eqb colormode "fillgradient") eqn:E;
            [apply String.eqb_eq in E; contradiction |];
            rewrite (dict_get_absent SOLID_COLORMODE_MAPS colormode Hsolid);
            split; reflexivity).
  all: intros Hin;
    (destruct (String.eqb colormode "fillgradient") eqn:E; [apply nic_ok |]);
    (destruct Hin as [<- | Hin]; [discriminate E |]);
    destruct (dict_get_present SOLID_COLORMODE_MAPS colormode Hin) as (f & Hf);
    rewrite Hf; (apply nic_bind; [apply (nic_strategies colormode f ctx Hf) |]);
    intro ps; apply nic_ok.
Qed.

End ColormodeCheck.

(** An unknown name and the six recognized ones, with the modelled helpers. *)
Lemma compute_trace_colors_colormode_check_witness :
  (compute_trace_colors_rgba black_white "mean" None (ctx_of densities_points)
   = Err (InvalidColormode
            ("The colormode argument should be 'fillgradient' or one of the solid colormodes "
             ++ "('row-index', 'trace-index', 'trace-index-row-wise', 'mean-minmax', 'mean-means')"
             ++ ", got " ++ "mean" ++ " instead."))
   /\ kind_of (InvalidColormode (colormode_message "mean")) = ValueError)
  /\ not_invalid_colormode
       (compute_trace_colors_rgba black_white "mean-minmax" None (ctx_of densities_points)).
Proof.
  assert (Hvalid : validate_and_coerce_colorscale black_white = Ok black_white)
    by reflexivity.
  assert (Halpha : forall c a, exists c', apply_alpha c a = Ok c')
    by (intros c a; eexists; reflexivity).
  split.
  - apply (proj1 (compute_trace_colors_colormode_check to_rgb find_intermediate_color
                    apply_alpha round_color validate_and_coerce_colorscale
                    black_white black_white "mean" None (ctx_of densities_points)
                    Hvalid Halpha)).
    + discriminate.
    + simpl. intuition discriminate.
  - apply (proj2 (compute_trace_colors_colormode_check to_rgb find_intermediate_color
                    apply_alpha round_color validate_and_coerce_colorscale
                    black_white black_white "mean-minmax" None (ctx_of densities_points)
                    Hvalid Halpha)).
    simpl. auto 10.
Defined.

(** ** [interpolate_color] *)

Lemma index_of_first (p : Q) (scale : list Q) (i : nat) (s : Q) :
  nth_error scale i = Some s -> s == p ->
  (forall j s', (j < i)%nat -> nth_error scale j = Some s' -> ~ s' == p) ->
  index_of p scale = Ok i.
Proof.
  revert i. induction scale as [| s0 scale IH]; intros i Hnth Hs Hfirst.
  - destruct i; discriminate Hnth.
  - destruct i as [| i]; simpl in *.
    + injection Hnth as ->. apply Qeq_bool_iff in Hs. rewrite Hs. reflexivity.
    + assert (E : Qeq_bool s0 p = false).
      { apply Qeq_bool_false. apply (Hfirst 0%nat s0); [lia | reflexivity]. }
      rewrite E. rewrite (IH i Hnth Hs); [reflexivity |].
      intros j s' Hj Hnth'. apply (Hfirst (S j) s'); [lia | exact Hnth'].
Qed.

Lemma index_of_found (v : Q) (scale : list Q) :
  In v scale -> exists i, index_of v scale = Ok i /\ (i < List.length scale)%nat.
Proof.
  induction scale as [| s scale IH]; intro Hin; [contradiction |]. simpl.
  destruct (Qeq_bool s v) eqn:E.
  - exists 0%nat. split; [reflexivity | lia].
  - destruct Hin as [-> | Hin].
    + assert (Qeq_bool v v = true) by (apply Qeq_bool_iff; reflexivity). congruence.
    + destruct (IH Hin) as (i & -> & Hi). exists (S i). split; [reflexivity | lia].
Qed.

Lemma py_in_iff (p : Q) (scale : list Q) :
  py_in p scale = true <-> exists s, In s scale /\ s == p.
Proof.
  unfold py_in. rewrite existsb_exists. split; intros (s & Hin & Hs); exists s;
    (split; [exact Hin | apply Qeq_bool_iff; exact Hs]).
Qed.

Lemma py_in_index_of (p : Q) (scale : list Q) :
  py_in p scale = true ->
  exists i s, index_of p scale = Ok i /\ nth_error scale i = Some s /\ s == p.
Proof.
  induction scale as [| s0 scale IH]; simpl; intro Hin; [discriminate |].
  destruct (Qeq_bool s0 p) eqn:E.
  - exists 0%nat, s0. repeat split. apply Qeq_bool_iff. exact E.
  - simpl in Hin. destruct (IH Hin) as (i & s & -> & Hnth & Hs).
    exists (S i), s. repeat split; assumption.
Qed.

Lemma item_lt {A} (l : list A) (i : nat) :
  (i < List.length l)%nat -> exists a, item l i = Ok a /\ nth_error l i = Some a.
Proof.
  intro Hi. unfold item. destruct (nth_error l i) as [a |] eqn:E.
  - exists a. split; reflexivity.
  - apply nth_error_None in E. lia.
Qed.

Lemma unit_interval_test (p : Q) :
  negb (Qle_bool 0 p && Qle_bool p 1) = false <-> 0 <= p <= 1.
Proof.
  rewrite negb_false_iff, andb_true_iff, !Qle_bool_iff. reflexivity.
Qed.

Lemma py_min_filter (f : Q -> bool) (scale : list Q) (s : Q) :
  In s scale -> f s = true ->
  exists m, py_min (filter f scale) = Ok m
            /\ In m scale /\ f m = true
            /\ forall v, In v scale -> f v = true -> m <= v.
Proof.
  intros Hin Hf.
  assert (Hs : In s (filter f scale)) by (apply filter_In; split; assumption).
  destruct (filter f scale) as [| a l] eqn:E; [contradiction |].
  destruct (min_from_spec l a) as (Hm & Hle & Hall).
  exists (min_from a l). split; [reflexivity |].
  assert (Hmem : In (min_from a l) (filter f scale)).
  { rewrite E. destruct Hm as [-> | Hm]; [left; reflexivity | right; exact Hm]. }
  apply filter_In in Hmem. destruct Hmem as [Hmem Hfm].
  repeat split; try assumption.
  intros v Hv Hfv.
  assert (Hv' : In v (a :: l)) by (rewrite <- E; apply filter_In; split; assumption).
  destruct Hv' as [<- | Hv']; [exact Hle | apply Hall; exact Hv'].
Qed.

Lemma py_max_filter (f : Q -> bool) (scale : list Q) (s : Q) :
  In s scale -> f s = true ->
  exists m, py_max (filter f scale) = Ok m
            /\ In m scale /\ f m = true
            /\ forall v, In v scale -> f v = true -> v <= m.
Proof.
  intros Hin Hf.
  assert (Hs : In s (filter f scale)) by (apply filter_In; split; assumption).
  destruct (filter f scale) as [| a l] eqn:E; [contradiction |].
  destruct (max_from_spec l a) as (Hm & Hle & Hall).
  exists (max_from a l). split; [reflexivity |].
  assert (Hmem : In (max_from a l) (filter f scale)).
  { rewrite E. destruct Hm as [-> | Hm]; [left; reflexivity | right; exact Hm]. }
  apply filter_In in Hmem. destruct Hmem as [Hmem Hfm].
  repeat split; try assumption.
  intros v Hv Hfv.
  assert (Hv' : In v (a :: l)) by (rewrite <- E; apply filter_In; split; assumption).
  destruct Hv' as [<- | Hv']; [exact Hle | apply Hall; exact Hv'].
Qed.

Lemma normalise_inside (val min_ max_ : Q) :
  min_ < max_ -> min_ <= val <= max_ ->
  normalise_min_max val min_ max_ = Ok ((val - min_) / (max_ - min_)).
Proof.
  intros Hlt [Hlo Hhi]. unfold normalise_min_max.
  assert (E1 : Qle_bool max_ min_ = false) by (apply Qle_bool_false; exact Hlt).
  apply Qle_bool_iff in Hlo. apply Qle_bool_iff in Hhi.
  rewrite E1, Hlo, Hhi. reflexivity.
Qed.

Lemma last_in (scale : list Q) (d : Q) : scale <> [] -> In (last scale d) scale.
Proof.
  induction scale as [| a scale IH]; intro Hne; [contradiction |].
  destruct scale as [| b scale]; [left; reflexivity |].
  right. apply IH. discriminate.
Qed.

Lemma canonical_ends {Color} (cs : ColorScale Color) :
  canonicalb cs = true ->
  (exists s, In s (map fst cs) /\ s == 0) /\ (exists s, In s (map fst cs) /\ s == 1).
Proof.
  unfold canonicalb. rewrite !andb_true_iff. intros [[_ Hhd] Hlast].
  destruct (map fst cs) as [| s0 scale] eqn:E; [discriminate |].
  split.
  - exists s0. split; [left; reflexivity | apply Qeq_bool_iff; exact Hhd].
  - exists (last (s0 :: scale) 0). split; [apply last_in; discriminate |].
    apply Qeq_bool_iff. exact Hlast.
Qed.

Section InterpolateColor.
Context {Color : Type}.
Variable to_rgb' : Color -> Res Color.
Variable blend : Color -> Color -> Q -> Res Color.

Lemma interpolate_color_outside (cs : ColorScale Color) (p : Q) :
  ~ 0 <= p <= 1 -> interpolate_color to_rgb' blend cs p = Err (PointOutsideUnit p).
Proof.
  intro Hout. unfold interpolate_color.
  destruct (negb (Qle_bool 0 p && Qle_bool p 1)) eqn:E; [reflexivity |].
  apply unit_interval_test in E. contradiction.
Qed.

(** At a stop position the stored colour of the first stop with that
    position is returned, whatever the helpers do. *)
Lemma interpolate_color_first_stop (cs : ColorScale Color) (p : Q)
    (i : nat) (s : Q) (c : Color) :
  0 <= p <= 1 ->
  nth_error cs i = Some (s, c) -> s == p ->
  (forall j a, (j < i)%nat -> nth_error cs j = Some a -> ~ fst a == p) ->
  interpolate_color to_rgb' blend cs p = Ok c.
Proof.
  intros Hp Hnth Hs Hfirst. unfold interpolate_color.
  apply unit_interval_test in Hp. rewrite Hp.
  assert (Hscale : nth_error (map fst cs) i = Some s).
  { rewrite nth_error_map, Hnth. reflexivity. }
  assert (Hin : py_in p (map fst cs) = true).
  { apply py_in_iff. exists s. split; [apply (nth_error_In _ _ Hscale) | exact Hs]. }
  rewrite Hin.
  rewrite (index_of_first p (map fst cs) i s Hscale Hs).
  - simpl. unfold item. rewrite nth_error_map, Hnth. reflexivity.
  - intros j s' Hj Hnth'. rewrite nth_error_map in Hnth'.
    destruct (nth_error cs j) as [a |] eqn:Ea; [| discriminate].
    injection Hnth' as <-. apply (Hfirst j a Hj Ea).
Qed.

(** C3, amended. When [p] in [0, 1] is the position of a stop of a colour
    scale of unique positions, [interpolate_color] returns the colour stored
    with that stop, for every behaviour of the conversion and blending
    helpers: neither of them is applied to it. *)
Theorem interpolate_color_exact_stop (cs : ColorScale Color) (p s : Q) (c : Color) :
  unique_positions cs ->
  0 <= p <= 1 ->
  In (s, c) cs -> s == p ->
  interpolate_color to_rgb' blend cs p = Ok c.
Proof.
  intros Huniq Hp Hin Hs.
  apply In_nth_error in Hin. destruct Hin as (i & Hnth).
  apply (interpolate_color_first_stop cs p i s c Hp Hnth Hs).
  intros j a Hj Hnth' Ha.
  assert (j = i); [| lia].
  apply (Huniq j i a (s, c) Hnth' Hnth). simpl. rewrite Ha, Hs. reflexivity.
Qed.

(** Off the stops of a colour scale that has stops at 0 and at 1, the
    bracket exists and the blend of its two colours is returned. *)
Lemma interpolate_color_bracket (cs : ColorScale Color) (p : Q) (colors : list Color) :
  canonicalb cs = true ->
  mapM to_rgb' (map snd cs) = Ok colors ->
  0 <= p <= 1 ->
  py_in p (map fst cs) = false ->
  exists floor ceil i_floor i_ceil lowcolor highcolor,
    In floor (map fst cs) /\ In ceil (map fst cs)
    /\ floor < p /\ p < ceil
    /\ (forall s, In s (map fst cs) -> s < p -> s <= floor)
    /\ (forall s, In s (map fst cs) -> p < s -> ceil <= s)
    /\ index_of floor (map fst cs) = Ok i_floor
    /\ index_of ceil (map fst cs) = Ok i_ceil
    /\ nth_error colors i_floor = Some lowcolor
    /\ nth_error colors i_ceil = Some highcolor
    /\ interpolate_color to_rgb' blend cs p
       = blend lowcolor highcolor ((p - floor) / (ceil - floor)).
Proof.
  intros Hcan Hcolors Hp Hnot.
  destruct (canonical_ends cs Hcan) as ((s0 & Hin0 & Hs0) & (s1 & Hin1 & Hs1)).
  assert (Hoff : forall s, In s (map fst cs) -> ~ s == p).
  { intros s Hin Hs.
    assert (py_in p (map fst cs) = true) by (apply py_in_iff; exists s; auto).
    congruence. }
  assert (Hlo : s0 < p).
  { pose proof (Hoff s0 Hin0) as Hne. destruct Hp as [Hp0 _].
    apply Qle_lt_or_eq in Hp0. destruct Hp0 as [Hp0 | Hp0].
    - rewrite Hs0. exact Hp0.
    - exfalso. apply Hne. rewrite Hs0. exact Hp0. }
  assert (Hhi : p < s1).
  { pose proof (Hoff s1 Hin1) as Hne. destruct Hp as [_ Hp1].
    apply Qle_lt_or_eq in Hp1. destruct Hp1 as [Hp1 | Hp1].
    - rewrite Hs1. exact Hp1.
    - exfalso. apply Hne. rewrite Hs1. symmetry. exact Hp1. }
  destruct (py_min_filter (fun s => Qltb p s) (map fst cs) s1 Hin1)
    as (ceil & Hceil & Hcin & Hcgt & Hcleast); [apply Qltb_lt; exact Hhi |].
  destruct (py_max_filter (fun s => Qltb s p) (map fst cs) s0 Hin0)
    as (floor & Hfloor & Hfin & Hflt & Hfmost); [apply Qltb_lt; exact Hlo |].
  apply Qltb_lt in Hcgt. apply Qltb_lt in Hflt.
  destruct (index_of_found floor (map fst cs) Hfin) as (i_floor & Hif & Hlenf).
  destruct (index_of_found ceil (map fst cs) Hcin) as (i_ceil & Hic & Hlenc).
  pose proof (mapM_length _ _ _ Hcolors) as Hlen.
  rewrite !length_map in *.
  destruct (item_lt colors i_floor ltac:(lia)) as (lowcolor & Hlow & Hlow').
  destruct (item_lt colors i_ceil ltac:(lia)) as (highcolor & Hhigh & Hhigh').
  exists floor, ceil, i_floor, i_ceil, lowcolor, highcolor.
  repeat split; try assumption.
  - intros s Hs Hsp. apply Hfmost; [exact Hs | apply Qltb_lt; exact Hsp].
  - intros s Hs Hsp. apply Hcleast; [exact Hs | apply Qltb_lt; exact Hsp].
  - unfold interpolate_color.
    apply unit_interval_test in Hp. rewrite Hp, Hnot, Hcolors. cbn [bind].
    change (filter (fun s => gt s p) (map fst cs))
      with (filter (fun s => Qltb p s) (map fst cs)).
    change (filter (fun s => lt s p) (map fst cs))
      with (filter (fun s => Qltb s p) (map fst cs)).
    rewrite Hceil, Hfloor. cbn [bind].
    rewrite (normalise_inside p floor ceil).
    + cbn [bind]. rewrite Hif. cbn [bind]. rewrite Hlow. cbn [bind].
      rewrite Hic. cbn [bind]. rewrite Hhigh. reflexivity.
    + apply Qlt_trans with p; assumption.
    + split; apply Qlt_le_weak; assumption.
Qed.

(** C4. On a canonical colour scale whose colours the helpers accept,
    [interpolate_color] raises exactly when [p] is outside [0, 1], and the
    error is then the domain error on [p]; for every [p] inside it returns
    a colour. *)
Theorem interpolate_color_raises_iff_outside (cs : ColorScale Color) (p : Q) :
  canonicalb cs = true ->
  (forall c, In c (map snd cs) -> exists c', to_rgb' c = Ok c') ->
  (forall lo hi t, exists c, blend lo hi t = Ok c) ->
  (is_err (interpolate_color to_rgb' blend cs p) = true <-> ~ 0 <= p <= 1)
  /\ (~ 0 <= p <= 1 -> interpolate_color to_rgb' blend cs p = Err (PointOutsideUnit p))
  /\ (0 <= p <= 1 -> exists c, interpolate_color to_rgb' blend cs p = Ok c).
Proof.
  intros Hcan Hrgb Hblend.
  assert (Hin : 0 <= p <= 1 -> exists c, interpolate_color to_rgb' blend cs p = Ok c).
  { intro Hp. destruct (py_in p (map fst cs)) eqn:E.
    - destruct (py_in_index_of p (map fst cs) E) as (i & s & Hi & Hnth & Hs).
      unfold interpolate_color. apply unit_interval_test in Hp. rewrite Hp, E, Hi.
      cbn [bind].
      destruct (item_lt (map snd cs) i) as (c & Hc & _); [| exists c; exact Hc].
      rewrite length_map, <- (length_map fst). apply nth_error_Some. congruence.
    - destruct (mapM_total to_rgb' (map snd cs) Hrgb) as (colors & Hcolors).
      destruct (interpolate_color_bracket cs p colors Hcan Hcolors Hp E)
        as (fl & ce & i1 & i2 & lo & hi & _ & _ & _ & _ & _ & _ & _ & _ & _ & _ & ->).
      apply Hblend. }
  split; [| split; [apply interpolate_color_outside | exact Hin]].
  split.
  - intros Herr Hp. destruct (Hin Hp) as (c & Hc). rewrite Hc in Herr. discriminate.
  - intro Hout. rewrite (interpolate_color_outside cs p Hout). reflexivity.
Qed.

End InterpolateColor.

(** The stop at 1 of the black-to-white scale. *)
Lemma interpolate_color_exact_stop_witness :
  interpolate_color_rgba black_white 1 = Ok (rgb 255 255 255).
Proof.
  apply (interpolate_color_exact_stop to_rgb find_intermediate_color black_white 1 1
           (rgb 255 255 255)).
  - intros i j a b Hi Hj Hab.
    destruct i as [| [| i]]; destruct j as [| [| j]]; simpl in Hi, Hj;
      try reflexivity;
      try (destruct i; discriminate Hi); try (destruct j; discriminate Hj);
      injection Hi as <-; injection Hj as <-; simpl in Hab; discriminate Hab.
  - split; discriminate.
  - right. left. reflexivity.
  - reflexivity.
Defined.

(** C3, as stated, for every colour scale: a scale with two stops at 1/2.
    The second of them is a stop at the position asked for, and its colour
    is not what is returned; the lookup by position finds the first. *)
Lemma interpolate_color_second_stop_not_returned :
  0 <= 1 # 2 <= 1
  /\ In (1 # 2, rgb 20 20 20)
        [ (0, rgb 0 0 0); (1 # 2, rgb 10 10 10); (1 # 2, rgb 20 20 20);
          (1, rgb 255 255 255) ]
  /\ interpolate_color_rgba
       [ (0, rgb 0 0 0); (1 # 2, rgb 10 10 10); (1 # 2, rgb 20 20 20);
         (1, rgb 255 255 255) ] (1 # 2)
     = Ok (rgb 10 10 10)
  /\ interpolate_color_rgba
       [ (0, rgb 0 0 0); (1 # 2, rgb 10 10 10); (1 # 2, rgb 20 20 20);
         (1, rgb 255 255 255) ] (1 # 2)
     <> Ok (rgb 20 20 20).
Proof.
  split; [split; discriminate |].
  split; [right; right; left; reflexivity |].
  split; [reflexivity | discriminate].
Qed.

(** The black-to-white scale at 3/2, outside the unit interval, and at 1/4. *)
Lemma interpolate_color_raises_iff_outside_witness :
  interpolate_color_rgba black_white (3 # 2) = Err (PointOutsideUnit (3 # 2))
  /\ exists c, interpolate_color_rgba black_white (1 # 4) = Ok c.
Proof.
  assert (Hcan : canonicalb black_white = true) by reflexivity.
  assert (Hrgb : forall c, In c (map snd black_white) -> exists c', to_rgb c = Ok c')
    by (intros c _; exists c; reflexivity).
  assert (Hblend : forall lo hi t, exists c, find_intermediate_color lo hi t = Ok c)
    by (intros lo hi t; eexists; reflexivity).
  split.
  - apply (proj1 (proj2 (interpolate_color_raises_iff_outside to_rgb find_intermediate_color
                           black_white (3 # 2) Hcan Hrgb Hblend))).
    intros [_ H]. apply H. reflexivity.
  - apply (proj2 (proj2 (interpolate_color_raises_iff_outside to_rgb find_intermediate_color
                           black_white (1 # 4) Hcan Hrgb Hblend))).
    split; discriminate.
Defined.

(** ** The index strategies *)

Lemma inject_Z_nonzero (z : Z) : z <> 0%Z -> ~ inject_Z z == 0.
Proof.
  intros Hz E. apply Hz. unfold Qeq in E. simpl in E. lia.
Qed.

Lemma index_position_ok (n i : Z) :
  (n - 1 <> 0)%Z -> index_position n i = Ok (position_of n i).
Proof.
  intro Hn. unfold index_position, py_truediv.
  assert (E : Qeq_bool (inject_Z (n - 1)) 0 = false).
  { apply Qeq_bool_false. apply inject_Z_nonzero. exact Hn. }
  rewrite E. reflexivity.
Qed.

Lemma position_of_first (n : Z) : (n - 1 <> 0)%Z -> position_of n 0 == 1.
Proof.
  intro Hn. unfold position_of. rewrite Z.sub_0_r.
  apply Qmult_inv_r. apply inject_Z_nonzero. exact Hn.
Qed.

Lemma position_of_last (n : Z) : position_of n (n - 1) == 0.
Proof.
  unfold position_of. rewrite Z.sub_diag. unfold Qdiv. apply Qmult_0_l.
Qed.

Lemma enumerate_from_app {A} (l1 l2 : list A) (k : nat) :
  combine (seq k (List.length (l1 ++ l2))) (l1 ++ l2)
  = combine (seq k (List.length l1)) l1
    ++ combine (seq (k + List.length l1) (List.length l2)) l2.
Proof.
  revert k. induction l1 as [| a l1 IH]; intro k; simpl.
  - rewrite Nat.add_0_r. reflexivity.
  - f_equal. rewrite IH. do 2 f_equal. f_equal. lia.
Qed.

Lemma row_index_ok (ctx : InterpolationContext) :
  (n_rows ctx - 1 <> 0)%Z ->
  _interpolate_row_index ctx
  = Ok (map (fun ir : nat * Row =>
               repeat (position_of (n_rows ctx) (Z.of_nat (fst ir))) (List.length (snd ir)))
            (enumerate (densities ctx))).
Proof.
  intro Hn. unfold _interpolate_row_index. apply mapM_pure.
  intros ir _. rewrite (index_position_ok _ _ Hn). reflexivity.
Qed.

Lemma Forall_repeat {A} (P : A -> Prop) (v : A) (m : nat) : P v -> Forall P (repeat v m).
Proof.
  intro Hv. induction m as [| m IH]; simpl; constructor; assumption.
Qed.

Lemma positions_length (n k : Z) (m : nat) : List.length (positions n k m) = m.
Proof.
  revert k. induction m as [| m IH]; intro k; simpl; [| rewrite IH]; reflexivity.
Qed.

Lemma positions_app (n k : Z) (a b : nat) :
  positions n k (a + b) = positions n k a ++ positions n (k + Z.of_nat a) b.
Proof.
  revert k. induction a as [| a IH]; intro k.
  - simpl. rewrite Z.add_0_r. reflexivity.
  - cbn [positions Nat.add app]. f_equal. rewrite IH. do 2 f_equal. lia.
Qed.

Lemma trace_index_row_ok (n : Z) (row : Row) (k : Z) :
  (n - 1 <> 0)%Z ->
  trace_index_row n row k = Ok (positions n k (List.length row), (k + len row)%Z).
Proof.
  intro Hn. revert k. induction row as [| t row IH]; intro k.
  - simpl. unfold len. simpl. rewrite Z.add_0_r. reflexivity.
  - cbn [trace_index_row]. rewrite (index_position_ok _ _ Hn). cbn [bind].
    rewrite IH. cbn [bind fst snd List.length positions].
    do 2 f_equal. unfold len. cbn [List.length]. lia.
Qed.

Lemma trace_index_rows_ok (n : Z) (rows : Densities) (k : Z) :
  (n - 1 <> 0)%Z ->
  exists ps,
    trace_index_rows n rows k = Ok ps
    /\ map (@List.length Q) ps = map (@List.length Trace) rows
    /\ concat ps = positions n k (List.length (concat rows)).
Proof.
  intro Hn. revert k. induction rows as [| row rows IH]; intro k.
  - exists []. repeat split.
  - cbn [trace_index_rows]. rewrite (trace_index_row_ok n row k Hn). cbn [bind fst snd].
    destruct (IH (k + len row)%Z) as (ps & -> & Hshape & Hcat).
    cbn [bind]. exists (positions n k (List.length row) :: ps).
    split; [reflexivity |]. split.
    + cbn [map]. rewrite positions_length, Hshape. reflexivity.
    + cbn [concat]. rewrite length_app, positions_app, Hcat. reflexivity.
Qed.

Lemma fold_add_len {A} (rows : list (list A)) (a : Z) :
  fold_left Z.add (map len rows) a = (a + len (concat rows))%Z.
Proof.
  revert a. induction rows as [| row rows IH]; intro a; simpl.
  - unfold len. simpl. lia.
  - rewrite IH. unfold len. rewrite length_app. lia.
Qed.

Lemma sum_len_concat {A} (rows : list (list A)) : sum_len rows = len (concat rows).
Proof.
  unfold sum_len. rewrite fold_add_len. lia.
Qed.

(** C6. In a context that counts the rows of its dataset, of which there
    are at least two, the row-index strategy gives one position per trace,
    1 to every trace of the first row and 0 to every trace of the last; in
    a context that counts the traces, at least two, the trace-index
    strategy gives one position per trace, 1 to the first trace in
    row-major order and 0 to the last. *)
Theorem index_strategies_endpoints (ctx : InterpolationContext) :
  (n_rows ctx = len (densities ctx) -> (2 <= n_rows ctx)%Z ->
   exists ps,
     _interpolate_row_index ctx = Ok ps
     /\ map (@List.length Q) ps = map (@List.length Trace) (densities ctx)
     /\ (exists first rest, ps = first :: rest /\ Forall (fun v => v == 1) first)
     /\ (exists init final, ps = init ++ [final] /\ Forall (fun v => v == 0) final))
  /\ (n_traces ctx = sum_len (densities ctx) -> (2 <= n_traces ctx)%Z ->
      exists ps,
        _interpolate_trace_index ctx = Ok ps
        /\ map (@List.length Q) ps = map (@List.length Trace) (densities ctx)
        /\ (exists first rest, concat ps = first :: rest /\ first == 1)
        /\ (exists init final, concat ps = init ++ [final] /\ final == 0)).
Proof.
  split.
  - intros Hcount Hn.
    assert (Hn1 : (n_rows ctx - 1 <> 0)%Z) by lia.
    rewrite (row_index_ok ctx Hn1). eexists. split; [reflexivity |].
    split; [| split].
    + clear Hcount. unfold enumerate. generalize 0%nat.
      induction (densities ctx) as [| row rows IH]; intro k; simpl; [reflexivity |].
      rewrite repeat_length, IH. reflexivity.
    + destruct (densities ctx) as [| row rows] eqn:E.
      { unfold len in Hcount. simpl in Hcount. lia. }
      unfold enumerate. simpl. eexists. eexists. split; [reflexivity |].
      apply Forall_repeat. apply position_of_first. exact Hn1.
    + destruct (exists_last (l := densities ctx)) as (init & final & E).
      { intro E. rewrite E in Hcount. unfold len in Hcount. simpl in Hcount. lia. }
      rewrite E. unfold enumerate. rewrite enumerate_from_app, map_app. simpl.
      eexists. eexists. split; [reflexivity |].
      apply Forall_repeat.
      assert (Hidx : Z.of_nat (List.length init) = (n_rows ctx - 1)%Z).
      { rewrite Hcount, E. unfold len. rewrite length_app. simpl. lia. }
      rewrite Hidx. apply position_of_last.
  - intros Hcount Hn.
    assert (Hn1 : (n_traces ctx - 1 <> 0)%Z) by lia.
    unfold _interpolate_trace_index.
    destruct (trace_index_rows_ok (n_traces ctx) (densities ctx) 0 Hn1)
      as (ps & Hps & Hshape & Hcat).
    exists ps. split; [exact Hps |]. split; [exact Hshape |].
    rewrite sum_len_concat in Hcount. unfold len in Hcount.
    destruct (List.length (concat (densities ctx))) as [| m] eqn:E; [lia |].
    split.
    + rewrite Hcat. cbn [positions]. eexists. eexists. split; [reflexivity |].
      apply position_of_first. exact Hn1.
    + rewrite Hcat. replace (S m) with (m + 1)%nat by lia. rewrite positions_app.
      cbn [positions]. eexists. eexists. split; [reflexivity |].
      replace (0 + Z.of_nat m)%Z with (n_traces ctx - 1)%Z by lia.
      apply position_of_last.
Qed.

(** Three rows of one, two and one traces: four traces. *)
Lemma index_strategies_endpoints_witness :
  let t : Trace := [[0; 1]; [1; 1]] in
  let ctx := {| densities := [[t]; [t; t]; [t]];
                n_rows := 3; n_traces := 4; x_min := 0; x_max := 1 |} in
  (exists ps,
     _interpolate_row_index ctx = Ok ps
     /\ map (@List.length Q) ps = map (@List.length Trace) (densities ctx)
     /\ (exists first rest, ps = first :: rest /\ Forall (fun v => v == 1) first)
     /\ (exists init final, ps = init ++ [final] /\ Forall (fun v => v == 0) final))
  /\ (exists ps,
        _interpolate_trace_index ctx = Ok ps
        /\ map (@List.length Q) ps = map (@List.length Trace) (densities ctx)
        /\ (exists first rest, concat ps = first :: rest /\ first == 1)
        /\ (exists init final, concat ps = init ++ [final] /\ final == 0)).
Proof.
  intros t ctx. split.
  - apply (proj1 (index_strategies_endpoints ctx)); [reflexivity | simpl; lia].
  - apply (proj2 (index_strategies_endpoints ctx)); [reflexivity | simpl; lia].
Defined.

(** ** The mean strategies *)

Lemma heads_x (pts : Points) : heads (trace_of_points pts) = Some (map fst pts).
Proof.
  unfold trace_of_points. induction pts as [| xy pts IH]; simpl; [| rewrite IH]; reflexivity.
Qed.

Lemma tails_y (pts : Points) :
  map (@tl Q) (trace_of_points pts) = map (fun xy => [snd xy]) pts.
Proof.
  unfold trace_of_points. rewrite map_map. reflexivity.
Qed.

Lemma heads_y (pts : Points) :
  heads (map (fun xy : Q * Q => [snd xy]) pts) = Some (map snd pts).
Proof.
  induction pts as [| xy pts IH]; simpl; [| rewrite IH]; reflexivity.
Qed.

Lemma zip_star_points (pts : Points) :
  pts <> [] -> zip_star (trace_of_points pts) = [map fst pts; map snd pts].
Proof.
  intro Hne. destruct pts as [| xy pts]; [contradiction |].
  unfold zip_star.
  change (trace_of_points (xy :: pts))
    with ([fst xy; snd xy] :: trace_of_points pts) at 1.
  cbn [List.length zip_star_aux].
  rewrite heads_x, tails_y, heads_y. reflexivity.
Qed.

Lemma mul_columns (pts : Points) :
  _mul (map fst pts) (map snd pts) = map (fun xy => fst xy * snd xy) pts.
Proof.
  unfold _mul. induction pts as [| xy pts IH]; simpl; [| rewrite IH]; reflexivity.
Qed.

(** On a trace given by its points, the expression of the code is the
    weighted mean of the specification. *)
Lemma trace_mean_points (pts : Points) :
  pts <> [] -> ~ py_sum (map snd pts) == 0 ->
  trace_mean (trace_of_points pts) = Ok (weighted_mean pts).
Proof.
  intros Hne Hsum. unfold trace_mean. rewrite (zip_star_points pts Hne).
  cbn [unpack2 bind fst snd]. rewrite mul_columns. unfold py_truediv.
  apply Qeq_bool_false in Hsum. rewrite Hsum. reflexivity.
Qed.

Lemma mapM_map {A B C} (f : B -> Res C) (g : A -> B) (l : list A) :
  mapM f (map g l) = mapM (fun a => f (g a)) l.
Proof.
  induction l as [| a l IH]; simpl; [| rewrite IH]; reflexivity.
Qed.

Lemma py_min_ok (l : list Q) :
  l <> [] -> exists m, py_min l = Ok m /\ In m l /\ forall v, In v l -> m <= v.
Proof.
  intro Hne. destruct l as [| a l]; [contradiction |].
  destruct (min_max_extrema a l) as (Hin & _ & Hall).
  exists (min_from a l). repeat split; [exact Hin | intros v Hv; apply (Hall v Hv)].
Qed.

Lemma py_max_ok (l : list Q) :
  l <> [] -> exists m, py_max l = Ok m /\ In m l /\ forall v, In v l -> v <= m.
Proof.
  intro Hne. destruct l as [| a l]; [contradiction |].
  destruct (min_max_extrema a l) as (_ & Hin & Hall).
  exists (max_from a l). repeat split; [exact Hin | intros v Hv; apply (Hall v Hv)].
Qed.

Lemma rows_min (means : list (list Q)) :
  Forall (fun row => row <> []) means ->
  exists mins,
    mapM py_min means = Ok mins
    /\ List.length mins = List.length means
    /\ (forall m, In m mins -> In m (concat means))
    /\ (forall v, In v (concat means) -> exists m, In m mins /\ m <= v).
Proof.
  intro Hrows. induction Hrows as [| row means Hrow Hrows IH].
  - exists []. repeat split; intros v [].
  - destruct (py_min_ok row Hrow) as (m & Hm & Hin & Hleast).
    destruct IH as (mins & Hmins & Hlen & Hsub & Hcover).
    cbn [mapM concat]. rewrite Hm. cbn [bind]. rewrite Hmins. cbn [bind].
    exists (m :: mins). repeat split.
    + simpl. rewrite Hlen. reflexivity.
    + intros m' [<- | Hm']; apply in_or_app; [left; exact Hin | right; apply Hsub; exact Hm'].
    + intros v Hv. apply in_app_or in Hv. destruct Hv as [Hv | Hv].
      * exists m. split; [left; reflexivity | apply Hleast; exact Hv].
      * destruct (Hcover v Hv) as (m' & Hm' & Hle). exists m'. split; [right |]; assumption.
Qed.

Lemma rows_max (means : list (list Q)) :
  Forall (fun row => row <> []) means ->
  exists maxs,
    mapM py_max means = Ok maxs
    /\ List.length maxs = List.length means
    /\ (forall m, In m maxs -> In m (concat means))
    /\ (forall v, In v (concat means) -> exists m, In m maxs /\ v <= m).
Proof.
  intro Hrows. induction Hrows as [| row means Hrow Hrows IH].
  - exists []. repeat split; intros v [].
  - destruct (py_max_ok row Hrow) as (m & Hm & Hin & Hmost).
    destruct IH as (maxs & Hmaxs & Hlen & Hsub & Hcover).
    cbn [mapM concat]. rewrite Hm. cbn [bind]. rewrite Hmaxs. cbn [bind].
    exists (m :: maxs). repeat split.
    + simpl. rewrite Hlen. reflexivity.
    + intros m' [<- | Hm']; apply in_or_app; [left; exact Hin | right; apply Hsub; exact Hm'].
    + intros v Hv. apply in_app_or in Hv. destruct Hv as [Hv | Hv].
      * exists m. split; [left; reflexivity | apply Hmost; exact Hv].
      * destruct (Hcover v Hv) as (m' & Hm' & Hle). exists m'. split; [right |]; assumption.
Qed.

Lemma normalise_rows (means : list (list Q)) (lo hi : Q) :
  lo < hi -> (forall v, In v (concat means) -> lo <= v <= hi) ->
  mapM (fun row => mapM (fun mean => normalise_min_max mean lo hi) row) means
  = Ok (map (map (fun mean => (mean - lo) / (hi - lo))) means).
Proof.
  intros Hlt Hall. apply mapM_pure. intros row Hrow.
  apply mapM_pure. intros m Hm. apply normalise_inside; [exact Hlt |].
  apply Hall. apply in_concat. exists row. split; assumption.
Qed.

(** The second pass of [_interpolate_mean_means] on the collected means. *)
Lemma mean_means_of_means (ctx : InterpolationContext) (means : list (list Q)) :
  mapM (fun row : Row => mapM trace_mean row) (densities ctx) = Ok means ->
  means <> [] -> Forall (fun row => row <> []) means ->
  (exists a b, In a (concat means) /\ In b (concat means) /\ a < b) ->
  exists lo hi,
    is_extrema lo hi (concat means) /\ lo < hi
    /\ _interpolate_mean_means ctx
       = Ok (map (map (fun mean => (mean - lo) / (hi - lo))) means).
Proof.
  intros Hmeans Hne Hrows (a & b & Ha & Hb & Hab).
  destruct (rows_min means Hrows) as (mins & Hmins & Hlen & Hsub & Hcover).
  destruct (rows_max means Hrows) as (maxs & Hmaxs & Hlen' & Hsub' & Hcover').
  destruct (py_min_ok mins) as (lo & Hlo & Hloin & Hleast).
  { intros ->. destruct means; [contradiction | discriminate Hlen]. }
  destruct (py_max_ok maxs) as (hi & Hhi & Hhiin & Hmost).
  { intros ->. destruct means; [contradiction | discriminate Hlen']. }
  assert (Hbounds : forall v, In v (concat means) -> lo <= v <= hi).
  { intros v Hv. split.
    - destruct (Hcover v Hv) as (m & Hm & Hle).
      apply Qle_trans with m; [apply Hleast; exact Hm | exact Hle].
    - destruct (Hcover' v Hv) as (m & Hm & Hle).
      apply Qle_trans with m; [exact Hle | apply Hmost; exact Hm]. }
  assert (Hlt : lo < hi).
  { apply Qle_lt_trans with a; [apply (Hbounds a Ha) |].
    apply Qlt_le_trans with b; [exact Hab | apply (Hbounds b Hb)]. }
  exists lo, hi. split; [| split; [exact Hlt |]].
  - split; [apply Hsub; exact Hloin |]. split; [apply Hsub'; exact Hhiin | exact Hbounds].
  - unfold _interpolate_mean_means. rewrite Hmeans. cbn [bind].
    rewrite Hmins. cbn [bind]. rewrite Hlo. cbn [bind].
    rewrite Hmaxs. cbn [bind]. rewrite Hhi. cbn [bind].
    apply normalise_rows; assumption.
Qed.

Lemma means_of_points (data : list (list Points)) :
  Forall (Forall (fun pts => pts <> [] /\ ~ py_sum (map snd pts) == 0)) data ->
  mapM (fun row : Row => mapM trace_mean row) (map (map trace_of_points) data)
  = Ok (map (map weighted_mean) data).
Proof.
  intro Hdata. rewrite mapM_map. apply mapM_pure. intros row Hrow.
  rewrite mapM_map. apply mapM_pure. intros pts Hpts.
  rewrite Forall_forall in Hdata. pose proof (Hdata row Hrow) as Hr.
  rewrite Forall_forall in Hr. destruct (Hr pts Hpts) as [Hne Hsum].
  apply trace_mean_points; assumption.
Qed.

Lemma normalised_ends (lo hi m : Q) :
  lo < hi ->
  (m == lo -> (m - lo) / (hi - lo) == 0) /\ (m == hi -> (m - lo) / (hi - lo) == 1).
Proof.
  intro Hlt. split; intro Hm; rewrite Hm.
  - unfold Qdiv. setoid_replace (lo - lo) with 0 by ring. apply Qmult_0_l.
  - apply Qmult_inv_r. intro E. apply (Qlt_not_eq lo hi Hlt).
    symmetry. rewrite <- (Qplus_0_l lo), <- E. ring.
Qed.

(** C7, as stated: a dataset of a single trace.  The least and the
    greatest mean coincide and the normalisation refuses the empty range. *)
Lemma mean_means_single_trace_raises :
  exists lo hi,
    _interpolate_mean_means (ctx_of densities_points) = Err (MaxNotAboveMin lo hi)
    /\ lo == 1 /\ hi == 1.
Proof.
  eexists. eexists. split; [vm_compute; reflexivity |]. split; reflexivity.
Qed.

(** C7, amended.  On a dataset of at least one row, every row non-empty,
    every trace a non-empty sequence of points whose weights do not sum to
    zero, and two traces of different weighted means, the mean-means
    strategy returns, for each trace, its weighted mean normalised between
    the least and the greatest of all weighted means: a trace of the least
    mean gets 0 and a trace of the greatest gets 1.  The x-extrema and the
    counts of the context play no part. *)
Theorem mean_means_normalises (ctx : InterpolationContext) (data : list (list Points)) :
  densities ctx = map (map trace_of_points) data ->
  data <> [] ->
  Forall (fun row => row <> []) data ->
  Forall (Forall (fun pts => pts <> [] /\ ~ py_sum (map snd pts) == 0)) data ->
  (exists a b, In a (concat data) /\ In b (concat data)
               /\ weighted_mean a < weighted_mean b) ->
  exists lo hi,
    is_extrema lo hi (map weighted_mean (concat data))
    /\ _interpolate_mean_means ctx
       = Ok (map (map (fun pts => (weighted_mean pts - lo) / (hi - lo))) data)
    /\ (forall pts, weighted_mean pts == lo -> (weighted_mean pts - lo) / (hi - lo) == 0)
    /\ (forall pts, weighted_mean pts == hi -> (weighted_mean pts - lo) / (hi - lo) == 1).
Proof.
  intros Hdens Hne Hrows Hdata (a & b & Ha & Hb & Hab).
  assert (Hcat : concat (map (map weighted_mean) data) = map weighted_mean (concat data)).
  { symmetry. apply concat_map. }
  destruct (mean_means_of_means ctx (map (map weighted_mean) data)) as (lo & hi & Hext & Hlt & Hres).
  - rewrite Hdens. apply means_of_points. exact Hdata.
  - destruct data; [contradiction | discriminate].
  - apply Forall_forall. intros row Hrow. apply in_map_iff in Hrow.
    destruct Hrow as (r & <- & Hr). rewrite Forall_forall in Hrows.
    pose proof (Hrows r Hr) as Hr'. destruct r; [contradiction | discriminate].
  - exists (weighted_mean a), (weighted_mean b). rewrite Hcat.
    repeat split; [apply in_map; exact Ha | apply in_map; exact Hb | exact Hab].
  - exists lo, hi. rewrite Hcat in Hext. split; [exact Hext |]. split.
    + rewrite Hres. rewrite map_map. f_equal.
      apply map_ext. intro row. rewrite map_map. reflexivity.
    + split; intros pts; apply (normalised_ends lo hi (weighted_mean pts) Hlt).
Qed.

(** Two rows: a trace of mean 1, then traces of means 3 and 2. *)
Lemma mean_means_normalises_witness :
  let data : list (list Points) :=
    [ [ [(0, 1); (1, 1); (2, 1)] ]; [ [(2, 1); (4, 1)]; [(2, 5)] ] ] in
  let ctx := {| densities := map (map trace_of_points) data;
                n_rows := 2; n_traces := 3; x_min := 0; x_max := 4 |} in
  exists lo hi,
    is_extrema lo hi (map weighted_mean (concat data))
    /\ _interpolate_mean_means ctx
       = Ok (map (map (fun pts => (weighted_mean pts - lo) / (hi - lo))) data)
    /\ (forall pts, weighted_mean pts == lo -> (weighted_mean pts - lo) / (hi - lo) == 0)
    /\ (forall pts, weighted_mean pts == hi -> (weighted_mean pts - lo) / (hi - lo) == 1).
Proof.
  intros data ctx.
  apply (mean_means_normalises ctx data).
  - reflexivity.
  - discriminate.
  - repeat constructor; discriminate.
  - repeat constructor; try discriminate; intro E; vm_compute in E; discriminate E.
  - exists [(0, 1); (1, 1); (2, 1)], [(2, 1); (4, 1)].
    split; [simpl; auto |]. split; [simpl; auto |]. reflexivity.
Defined.

(** ** Rounding *)

Lemma round_half_even_bounds (q : Q) :
  (Qfloor q <= round_half_even q <= Qfloor q + 1)%Z.
Proof.
  unfold round_half_even.
  destruct (Qcompare (q - inject_Z (Qfloor q)) (1 # 2)); [destruct (Z.even _) | |]; lia.
Qed.

Lemma round_half_even_mono (q1 q2 : Q) :
  q1 <= q2 -> (round_half_even q1 <= round_half_even q2)%Z.
Proof.
  intro Hle. pose proof (Qfloor_resp_le q1 q2 Hle) as Hfl.
  pose proof (round_half_even_bounds q1) as B1.
  pose proof (round_half_even_bounds q2) as B2.
  destruct (Z.eq_dec (Qfloor q1) (Qfloor q2)) as [E | Hne]; [| lia].
  unfold round_half_even in *. rewrite E in *.
  destruct (Qcompare (q1 - inject_Z (Qfloor q2)) (1 # 2)) eqn:C1;
    destruct (Qcompare (q2 - inject_Z (Qfloor q2)) (1 # 2)) eqn:C2;
    try lia; try (destruct (Z.even (Qfloor q2)); lia); exfalso;
    try apply Qeq_alt in C1; try apply Qgt_alt in C1;
    try apply Qeq_alt in C2; try apply Qlt_alt in C2; lra.
Qed.

Lemma pow10_pos (n : nat) : 0 < inject_Z (10 ^ Z.of_nat n).
Proof.
  rewrite <- (Zlt_Qlt 0). apply Z.pow_pos_nonneg; lia.
Qed.

Lemma round_ndigits_mono (n : nat) (q1 q2 : Q) :
  q1 <= q2 -> round_ndigits n q1 <= round_ndigits n q2.
Proof.
  intro Hle. unfold round_ndigits. pose proof (pow10_pos n) as Hpos.
  unfold Qdiv. apply Qmult_le_compat_r.
  - rewrite <- Zle_Qle. apply round_half_even_mono.
    apply Qmult_le_compat_r; [exact Hle | apply Qlt_le_weak; exact Hpos].
  - apply Qlt_le_weak. apply Qinv_lt_0_compat. exact Hpos.
Qed.

Lemma between_rounded (n : nat) (a b v : Q) :
  between a b v -> between (round_ndigits n a) (round_ndigits n b) (round_ndigits n v).
Proof.
  intros [[H1 H2] | [H1 H2]]; [left | right]; split; apply round_ndigits_mono; assumption.
Qed.

Lemma between_blend (a b t : Q) : 0 <= t <= 1 -> between a b (a + t * (b - a)).
Proof.
  intros [H0 H1]. unfold between.
  destruct (Qlt_le_dec b a) as [Hba | Hab]; [right | left]; split; nra.
Qed.

Lemma bracket_fraction (p floor ceil : Q) :
  floor < p -> p < ceil -> 0 <= (p - floor) / (ceil - floor) <= 1.
Proof.
  intros Hlo Hhi. assert (Hd : 0 < ceil - floor) by lra. split.
  - apply Qle_shift_div_l; [exact Hd | lra].
  - apply Qle_shift_div_r; [exact Hd | lra].
Qed.

(** ** The blend stays in the bracket *)

Lemma mapM_to_rgb (colors : list RGBA) : mapM to_rgb colors = Ok colors.
Proof.
  induction colors as [| c colors IH]; simpl; [| rewrite IH]; reflexivity.
Qed.

Lemma index_of_nth (v : Q) (scale : list Q) (i : nat) :
  index_of v scale = Ok i -> exists s, nth_error scale i = Some s /\ s == v.
Proof.
  revert i. induction scale as [| s0 scale IH]; simpl; intros i Hi; [discriminate |].
  destruct (Qeq_bool s0 v) eqn:E.
  - injection Hi as <-. exists s0. split; [reflexivity | apply Qeq_bool_iff; exact E].
  - destruct (index_of v scale) as [j | e]; simpl in Hi; [| discriminate].
    injection Hi as <-. apply IH. reflexivity.
Qed.

Lemma stop_at {Color} (cs : ColorScale Color) (i : nat) (s : Q) (c : Color) :
  nth_error (map fst cs) i = Some s -> nth_error (map snd cs) i = Some c -> In (s, c) cs.
Proof.
  rewrite !nth_error_map. intros Hs Hc.
  destruct (nth_error cs i) as [[s' c'] |] eqn:E; [| discriminate].
  simpl in Hs, Hc. injection Hs as <-. injection Hc as <-.
  apply (nth_error_In _ _ E).
Qed.

(** C5, as stated: between two stops of red channel 0.1234567890123 the
    blend has that red channel, and its rounding to 12 decimals,
    0.123456789012, is below both. *)
Lemma rounded_blend_leaves_bracket :
  exists c c',
    interpolate_color_rgba thirteen_decimals (1 # 2) = Ok c
    /\ round_color c 12 = Ok c'
    /\ red c' == 123456789012 # 1000000000000
    /\ ~ between (1234567890123 # 10000000000000) (1234567890123 # 10000000000000) (red c').
Proof.
  eexists. eexists. split; [vm_compute; reflexivity |]. split; [reflexivity |].
  split; [vm_compute; reflexivity |].
  intros [[H _] | [H _]]; vm_compute in H; apply H; reflexivity.
Qed.

(** C5, amended.  On a canonical colour scale, for [p] in [0, 1] off the
    stops, there are a stop below [p], the greatest such, and a stop above
    [p], the least such; each RGB channel of the returned colour lies
    between that channel of the two stops; rounded to [n] decimals it lies
    between the two channel values rounded alike, and so between the stored
    values when these have at most [n] decimals. *)
Theorem interpolate_color_within_bracket (cs : ColorScale RGBA) (p : Q) :
  canonicalb cs = true ->
  0 <= p <= 1 ->
  py_in p (map fst cs) = false ->
  exists floor ceil lowcolor highcolor c,
    In (floor, lowcolor) cs /\ In (ceil, highcolor) cs
    /\ floor < p /\ p < ceil
    /\ (forall s, In s (map fst cs) -> s < p -> s <= floor)
    /\ (forall s, In s (map fst cs) -> p < s -> ceil <= s)
    /\ interpolate_color_rgba cs p = Ok c
    /\ within lowcolor highcolor c
    /\ forall n,
         within (round_rgba n lowcolor) (round_rgba n highcolor) (round_rgba n c)
         /\ (has_decimals n lowcolor -> has_decimals n highcolor ->
             within lowcolor highcolor (round_rgba n c)).
Proof.
  intros Hcan Hp Hoff.
  destruct (interpolate_color_bracket to_rgb find_intermediate_color cs p (map snd cs)
              Hcan (mapM_to_rgb _) Hp Hoff)
    as (fl & ce & i1 & i2 & lo & hi & Hfin & Hcin & Hlt & Hgt & Hmost & Hleast
        & Hi1 & Hi2 & Hn1 & Hn2 & Hres).
  destruct (index_of_nth _ _ _ Hi1) as (s1 & Hs1 & E1).
  destruct (index_of_nth _ _ _ Hi2) as (s2 & Hs2 & E2).
  pose proof (bracket_fraction p fl ce Hlt Hgt) as Ht.
  assert (Hwithin : within lo hi
            (rgb (red lo + ((p - fl) / (ce - fl)) * (red hi - red lo))
                 (green lo + ((p - fl) / (ce - fl)) * (green hi - green lo))
                 (blue lo + ((p - fl) / (ce - fl)) * (blue hi - blue lo)))).
  { repeat split; apply between_blend; exact Ht. }
  exists s1, s2, lo, hi. eexists.
  split; [apply (stop_at cs i1 s1 lo Hs1 Hn1) |].
  split; [apply (stop_at cs i2 s2 hi Hs2 Hn2) |].
  split; [rewrite E1; exact Hlt |].
  split; [rewrite E2; exact Hgt |].
  split; [intros s Hs Hsp; rewrite E1; apply Hmost; assumption |].
  split; [intros s Hs Hsp; rewrite E2; apply Hleast; assumption |].
  split; [unfold interpolate_color_rgba; rewrite Hres; reflexivity |].
  split; [exact Hwithin |].
  intro n.
  assert (Hrounded : within (round_rgba n lo) (round_rgba n hi)
            (round_rgba n
               (rgb (red lo + ((p - fl) / (ce - fl)) * (red hi - red lo))
                    (green lo + ((p - fl) / (ce - fl)) * (green hi - green lo))
                    (blue lo + ((p - fl) / (ce - fl)) * (blue hi - blue lo))))).
  { destruct Hwithin as (Hr & Hg & Hb).
    repeat split; apply between_rounded; assumption. }
  split; [exact Hrounded |].
  intros (Lr & Lg & Lb) (Hr' & Hg' & Hb').
  destruct Hrounded as (Hr & Hg & Hb). unfold within, between in *. simpl in *.
  rewrite Lr, Hr' in Hr. rewrite Lg, Hg' in Hg. rewrite Lb, Hb' in Hb.
  repeat split; assumption.
Qed.

(** The black-to-white scale at 1/4. *)
Lemma interpolate_color_within_bracket_witness :
  exists floor ceil lowcolor highcolor c,
    In (floor, lowcolor) black_white /\ In (ceil, highcolor) black_white
    /\ floor < 1 # 4 /\ 1 # 4 < ceil
    /\ (forall s, In s (map fst black_white) -> s < 1 # 4 -> s <= floor)
    /\ (forall s, In s (map fst black_white) -> 1 # 4 < s -> ceil <= s)
    /\ interpolate_color_rgba black_white (1 # 4) = Ok c
    /\ within lowcolor highcolor c
    /\ forall n,
         within (round_rgba n lowcolor) (round_rgba n highcolor) (round_rgba n c)
         /\ (has_decimals n lowcolor -> has_decimals n highcolor ->
             within lowcolor highcolor (round_rgba n c)).
Proof.
  apply (interpolate_color_within_bracket black_white (1 # 4)).
  - reflexivity.
  - split; discriminate.
  - reflexivity.
Defined.

(** ** The gradient mode *)

Lemma apply_alpha_scale (cs : ColorScale RGBA) (a : Q) :
  mapM (fun vc : Q * RGBA => c <- apply_alpha (snd vc) a ;; Ok (fst vc, c)) cs
  = Ok (map (fun vc : Q * RGBA =>
               (fst vc, {| red := red (snd vc); green := green (snd vc);
                           blue := blue (snd vc); alpha := Some a |}))
            cs).
Proof.
  apply mapM_pure. intros vc _. reflexivity.
Qed.

Section GradientMode.
Context {ColorscaleArg : Type}.
Variable validate : ColorscaleArg -> Res (ColorScale RGBA).

(** C8. In the mode ["fillgradient"] with opacity 0.5, for a colorscale
    that validates and any context, [compute_trace_colors] yields one
    gradient descriptor per trace, row by row, and all of them are the same
    descriptor: its colour scale has the positions and the RGB channels of
    the validated one and alpha 0.5 on every stop, and its span is the
    [x_min] and [x_max] of the context. *)
Theorem fillgradient_descriptors
    (arg : ColorscaleArg) (cs : ColorScale RGBA) (ctx : InterpolationContext) :
  validate arg = Ok cs ->
  exists d : Fillgradient RGBA,
    compute_trace_colors to_rgb find_intermediate_color apply_alpha round_color validate
      arg "fillgradient" (Some (1 # 2)) ctx
    = Ok (map (fun row : Row => map (fun _ : Trace => Ok (fillgradient d)) row)
              (densities ctx))
    /\ map fst (fg_colorscale d) = map fst cs
    /\ map (fun vc => (red (snd vc), green (snd vc), blue (snd vc))) (fg_colorscale d)
       = map (fun vc => (red (snd vc), green (snd vc), blue (snd vc))) cs
    /\ Forall (fun vc => alpha (snd vc) = Some (1 # 2)) (fg_colorscale d)
    /\ fg_start d = x_min ctx /\ fg_stop d = x_max ctx
    /\ fg_type d = "horizontal"%string.
Proof.
  intro Hvalid. unfold compute_trace_colors. rewrite Hvalid. cbn [bind].
  rewrite apply_alpha_scale. cbn [bind String.eqb Ascii.eqb Bool.eqb].
  eexists. split; [reflexivity |]. cbn [fg_colorscale fg_start fg_stop fg_type].
  repeat split.
  - rewrite map_map. reflexivity.
  - rewrite map_map. reflexivity.
  - apply Forall_forall. intros vc Hvc. apply in_map_iff in Hvc.
    destruct Hvc as (vc' & <- & _). reflexivity.
Qed.

End GradientMode.

(** The black-to-white scale over three rows of one, two and no trace. *)
Lemma fillgradient_descriptors_witness :
  let t : Trace := [[0; 1]; [2; 1]] in
  let ctx := {| densities := [[t]; [t; t]; []];
                n_rows := 3; n_traces := 3; x_min := 0; x_max := 2 |} in
  exists d : Fillgradient RGBA,
    compute_trace_colors_rgba black_white "fillgradient" (Some (1 # 2)) ctx
    = Ok [[Ok (fillgradient d)]; [Ok (fillgradient d); Ok (fillgradient d)]; []]
    /\ map fst (fg_colorscale d) = [0; 1]
    /\ map (fun vc => (red (snd vc), green (snd vc), blue (snd vc))) (fg_colorscale d)
       = [(0, 0, 0); (255, 255, 255)]
    /\ Forall (fun vc => alpha (snd vc) = Some (1 # 2)) (fg_colorscale d)
    /\ fg_start d = 0 /\ fg_stop d = 2
    /\ fg_type d = "horizontal"%string.
Proof.
  intros t ctx.
  apply (fillgradient_descriptors validate_and_coerce_colorscale black_white black_white ctx).
  reflexivity.
Defined.

(** * Further properties of the code *)

(** ** [normalise_min_max] *)

(** X1. The two guards of [normalise_min_max]: the range error is raised
    exactly when [max_ <= min_], whatever [val] is; the bounds error exactly
    when the range is proper and [val] lies outside it; a value is returned
    exactly when the range is proper and [val] lies inside. *)
Theorem normalise_min_max_guards (val min_ max_ : Q) :
  (normalise_min_max val min_ max_ = Err (MaxNotAboveMin min_ max_) <-> max_ <= min_)
  /\ (normalise_min_max val min_ max_ = Err (ValOutOfBounds val min_ max_)
      <-> min_ < max_ /\ ~ min_ <= val <= max_)
  /\ (is_err (normalise_min_max val min_ max_) = false
      <-> min_ < max_ /\ min_ <= val <= max_).
Proof.
  unfold normalise_min_max.
  destruct (Qle_bool max_ min_) eqn:E1.
  - apply Qle_bool_iff in E1. repeat split; try discriminate; try (intros; assumption).
    + intros [Hlt _]. exfalso. lra.
    + intros [Hlt _]. exfalso. lra.
  - apply Qle_bool_false in E1.
    destruct (negb (Qle_bool min_ val && Qle_bool val max_)) eqn:E2.
    + assert (Hout : ~ min_ <= val <= max_).
      { intro Hin.
        rewrite negb_true_iff, andb_false_iff in E2.
        destruct Hin as [H1 H2]. apply Qle_bool_iff in H1. apply Qle_bool_iff in H2.
        destruct E2; congruence. }
      repeat split; try discriminate; try assumption.
      * intro Hle. exfalso. lra.
      * intros [_ Hin]. contradiction.
    + rewrite negb_false_iff, andb_true_iff, !Qle_bool_iff in E2.
      repeat split; try discriminate; try assumption; try apply E2.
      * intro Hle. exfalso. lra.
      * intros [_ Hout]. contradiction.
Qed.

(** ** [get_xy_extrema]: errors and composition *)

Lemma collect_xy_app (good rest : list (list (list Q))) (x y : list Q) :
  Forall (fun a => List.length a = 2%nat /\ ~ In [] a) good ->
  collect_xy (good ++ rest) x y
  = collect_xy rest (x ++ members 0 good) (y ++ members 1 good).
Proof.
  intro Hall. revert x y.
  induction Hall as [| array good [Hlen Hne] _ IH]; intros x y.
  - unfold members. simpl. rewrite !app_nil_r. reflexivity.
  - cbn [app collect_xy]. rewrite (check_array_ok array Hlen Hne). cbn [bind fst snd].
    rewrite IH. unfold members. cbn [map concat]. rewrite !app_assoc. reflexivity.
Qed.

Lemma check_array_bad (bad : list (list Q)) :
  List.length bad <> 2%nat \/ In [] bad ->
  check_array bad
  = Err (if Nat.eqb (List.length bad) 2 then EmptyArray else Not2DArray (List.length bad)).
Proof.
  intro Hbad.
  destruct bad as [| a0 [| a1 [| a2 bad]]]; try reflexivity.
  destruct Hbad as [Hlen | [-> | [-> | []]]].
  - exfalso. apply Hlen. reflexivity.
  - reflexivity.
  - simpl. destruct a0; reflexivity.
Qed.

(** X4. The arrays are checked in order and the first malformed one decides
    the error: its member count when that is not two, the empty-array error
    when one of its two members is empty.  What follows it is not looked
    at. *)
Theorem get_xy_extrema_first_error (good : list (list (list Q)))
    (bad : list (list Q)) (rest : list (list (list Q))) :
  Forall (fun a => List.length a = 2%nat /\ ~ In [] a) good ->
  List.length bad <> 2%nat \/ In [] bad ->
  get_xy_extrema (good ++ bad :: rest)
  = Err (if Nat.eqb (List.length bad) 2 then EmptyArray else Not2DArray (List.length bad)).
Proof.
  intros Hgood Hbad. unfold get_xy_extrema.
  rewrite (collect_xy_app good (bad :: rest) [] [] Hgood).
  cbn [collect_xy]. rewrite (check_array_bad bad Hbad). reflexivity.
Qed.

Lemma get_xy_extrema_first_error_witness :
  get_xy_extrema ([ [[0; 1]; [2; 3]] ] ++ [[4]; [5]; [6]] :: [ [[]; [7]] ])
  = Err (Not2DArray 3).
Proof.
  apply (get_xy_extrema_first_error [ [[0; 1]; [2; 3]] ] [[4]; [5]; [6]] [ [[]; [7]] ]).
  - repeat constructor; simpl; intuition discriminate.
  - left. discriminate.
Defined.

Lemma get_xy_extrema_ok_inv (arrays : list (list (list Q))) (r : Q * Q * Q * Q) :
  get_xy_extrema arrays = Ok r ->
  arrays <> [] /\ Forall (fun a => List.length a = 2%nat /\ ~ In [] a) arrays.
Proof.
  intro Hr. split.
  - intros ->. discriminate Hr.
  - destruct (Forall_or_Exists_shape arrays) as [Hall | Hex]; [exact Hall |].
    pose proof (collect_xy_err arrays [] [] Hex) as Herr.
    unfold get_xy_extrema in Hr.
    destruct (collect_xy arrays [] []); [discriminate Herr | discriminate Hr].
Qed.

Lemma get_xy_extrema_spec (arrays : list (list (list Q))) (a b c d : Q) :
  get_xy_extrema arrays = Ok (a, b, c, d) ->
  is_extrema a b (members 0 arrays) /\ is_extrema c d (members 1 arrays).
Proof.
  intro Hr. destruct (get_xy_extrema_ok_inv arrays _ Hr) as [Hne Hall].
  destruct (get_xy_extrema_ok arrays Hne Hall) as (a' & b' & c' & d' & Hr' & Hx & Hy).
  rewrite Hr in Hr'. injection Hr' as <- <- <- <-. split; assumption.
Qed.

Lemma members_app (i : nat) (A B : list (list (list Q))) :
  members i (A ++ B) = members i A ++ members i B.
Proof.
  unfold members. rewrite map_app, concat_app. reflexivity.
Qed.

Lemma is_extrema_unique (lo hi lo' hi' : Q) (l l' : list Q) :
  is_extrema lo hi l -> is_extrema lo' hi' l' ->
  (forall v, In v l <-> In v l') ->
  lo == lo' /\ hi == hi'.
Proof.
  intros (Hlo & Hhi & Hall) (Hlo' & Hhi' & Hall') Hsame.
  split; apply Qle_antisym.
  - apply Hall. apply Hsame. exact Hlo'.
  - apply Hall'. apply Hsame. exact Hlo.
  - apply Hall'. apply Hsame. exact Hhi.
  - apply Hall. apply Hsame. exact Hhi'.
Qed.

Lemma is_extrema_app (lo hi lo' hi' e f : Q) (l l' : list Q) :
  is_extrema lo hi l -> is_extrema lo' hi' l' -> is_extrema e f (l ++ l') ->
  ((e == lo \/ e == lo') /\ e <= lo /\ e <= lo')
  /\ ((f == hi \/ f == hi') /\ hi <= f /\ hi' <= f).
Proof.
  intros (Hlo & Hhi & Hall) (Hlo' & Hhi' & Hall') (He & Hf & Hboth).
  assert (Le : e <= lo) by (apply Hboth; apply in_or_app; left; exact Hlo).
  assert (Le' : e <= lo') by (apply Hboth; apply in_or_app; right; exact Hlo').
  assert (Lf : hi <= f) by (apply Hboth; apply in_or_app; left; exact Hhi).
  assert (Lf' : hi' <= f) by (apply Hboth; apply in_or_app; right; exact Hhi').
  repeat split; try assumption.
  - apply in_app_or in He. destruct He as [He | He]; [left | right];
      apply Qle_antisym; try assumption; [apply Hall | apply Hall']; exact He.
  - apply in_app_or in Hf. destruct Hf as [Hf | Hf]; [left | right];
      apply Qle_antisym; try assumption; [apply Hall | apply Hall']; exact Hf.
Qed.

(** X5. The extrema of two collections put together are the lesser of the two
    minima and the greater of the two maxima, for x and for y. *)
Theorem get_xy_extrema_app (A B : list (list (list Q)))
    (a b c d a' b' c' d' : Q) :
  get_xy_extrema A = Ok (a, b, c, d) ->
  get_xy_extrema B = Ok (a', b', c', d') ->
  exists e f g h,
    get_xy_extrema (A ++ B) = Ok (e, f, g, h)
    /\ ((e == a \/ e == a') /\ e <= a /\ e <= a')
    /\ ((f == b \/ f == b') /\ b <= f /\ b' <= f)
    /\ ((g == c \/ g == c') /\ g <= c /\ g <= c')
    /\ ((h == d \/ h == d') /\ d <= h /\ d' <= h).
Proof.
  intros HA HB.
  destruct (get_xy_extrema_ok_inv A _ HA) as [HneA HallA].
  destruct (get_xy_extrema_ok_inv B _ HB) as [_ HallB].
  destruct (get_xy_extrema_spec A a b c d HA) as [HxA HyA].
  destruct (get_xy_extrema_spec B a' b' c' d' HB) as [HxB HyB].
  destruct (get_xy_extrema_ok (A ++ B)) as (e & f & g & h & Hr & Hx & Hy).
  - destruct A; [contradiction | discriminate].
  - apply Forall_app. split; assumption.
  - rewrite members_app in Hx, Hy.
    exists e, f, g, h. split; [exact Hr |].
    destruct (is_extrema_app _ _ _ _ _ _ _ _ HxA HxB Hx) as [He Hf].
    destruct (is_extrema_app _ _ _ _ _ _ _ _ HyA HyB Hy) as [Hg Hh].
    repeat split; tauto.
Qed.

Lemma get_xy_extrema_app_witness :
  exists e f g h,
    get_xy_extrema ([ [[0; 3]; [1; 1]] ] ++ [ [[-2; 1]; [5; 0]] ]) = Ok (e, f, g, h)
    /\ ((e == 0 \/ e == -2) /\ e <= 0 /\ e <= -2)
    /\ ((f == 3 \/ f == 1) /\ 3 <= f /\ 1 <= f)
    /\ ((g == 1 \/ g == 0) /\ g <= 1 /\ g <= 0)
    /\ ((h == 1 \/ h == 5) /\ 1 <= h /\ 5 <= h).
Proof.
  apply (get_xy_extrema_app [ [[0; 3]; [1; 1]] ] [ [[-2; 1]; [5; 0]] ] 0 3 1 1 (-2) 1 0 5);
    reflexivity.
Defined.

Lemma members_permutation (i : nat) (A B : list (list (list Q))) :
  Permutation A B -> forall v, In v (members i A) <-> In v (members i B).
Proof.
  intros Hperm v. unfold members. rewrite !in_concat.
  split; intros (l & Hl & Hv); exists l; (split; [| exact Hv]);
    apply in_map_iff in Hl; destruct Hl as (a & <- & Ha);
    apply (in_map (fun array : list (list Q) => nth i array [])).
  - apply (Permutation_in _ Hperm Ha).
  - apply (Permutation_in _ (Permutation_sym Hperm) Ha).
Qed.

(** X6. The order in which the arrays are given does not matter: a reordered
    collection has numerically the same four extrema. *)
Theorem get_xy_extrema_permutation (A B : list (list (list Q))) (a b c d : Q) :
  Permutation A B ->
  get_xy_extrema A = Ok (a, b, c, d) ->
  exists a' b' c' d',
    get_xy_extrema B = Ok (a', b', c', d')
    /\ a == a' /\ b == b' /\ c == c' /\ d == d'.
Proof.
  intros Hperm HA.
  destruct (get_xy_extrema_ok_inv A _ HA) as [Hne Hall].
  destruct (get_xy_extrema_spec A a b c d HA) as [Hx Hy].
  destruct (get_xy_extrema_ok B) as (a' & b' & c' & d' & HB & Hx' & Hy').
  - intros ->. apply Permutation_sym, Permutation_nil in Hperm. contradiction.
  - apply (Permutation_Forall Hperm Hall).
  - exists a', b', c', d'. split; [exact HB |].
    destruct (is_extrema_unique _ _ _ _ _ _ Hx Hx' (members_permutation 0 A B Hperm)).
    destruct (is_extrema_unique _ _ _ _ _ _ Hy Hy' (members_permutation 1 A B Hperm)).
    repeat split; assumption.
Qed.

Lemma get_xy_extrema_permutation_witness :
  exists a' b' c' d',
    get_xy_extrema [ [[-2; 1]; [5; 0]]; [[0; 3]; [1; 1]] ] = Ok (a', b', c', d')
    /\ -2 == a' /\ 3 == b' /\ 0 == c' /\ 5 == d'.
Proof.
  apply (get_xy_extrema_permutation
           [ [[0; 3]; [1; 1]]; [[-2; 1]; [5; 0]] ] [ [[-2; 1]; [5; 0]]; [[0; 3]; [1; 1]] ]).
  - apply perm_swap.
  - reflexivity.
Defined.

(** ** The index strategies: the degenerate count and the range *)

Lemma index_position_zero (n i : Z) :
  (n - 1 = 0)%Z -> index_position n i = Err DivisionByZero.
Proof.
  intro Hn. unfold index_position, py_truediv. rewrite Hn. reflexivity.
Qed.

Lemma is_err_ok_false {A} (r : Res A) (a : A) : r = Ok a -> is_err r = true -> False.
Proof. intros -> H. discriminate H. Qed.

(** X7. The row-index strategy raises exactly when the context counts one row
    and the dataset has a row to give a position to; the error is then the
    division by zero of the first row. *)
Theorem row_index_degenerate (ctx : InterpolationContext) :
  (is_err (_interpolate_row_index ctx) = true
   <-> n_rows ctx = 1%Z /\ densities ctx <> [])
  /\ (n_rows ctx = 1%Z -> densities ctx <> [] ->
      _interpolate_row_index ctx = Err DivisionByZero).
Proof.
  assert (Hone : n_rows ctx = 1%Z -> densities ctx <> [] ->
                 _interpolate_row_index ctx = Err DivisionByZero).
  { intros Hn Hne. unfold _interpolate_row_index, enumerate.
    destruct (densities ctx) as [| row rows]; [contradiction |].
    cbn [List.length seq combine mapM fst].
    rewrite index_position_zero by lia. reflexivity. }
  split; [| exact Hone]. split.
  - intro Herr. destruct (Z.eq_dec (n_rows ctx) 1) as [Hn | Hn].
    + split; [exact Hn |]. intro Hnil.
      unfold _interpolate_row_index, enumerate in Herr. rewrite Hnil in Herr.
      discriminate Herr.
    + exfalso. apply (is_err_ok_false _ _ (row_index_ok ctx ltac:(lia)) Herr).
  - intros [Hn Hne]. rewrite (Hone Hn Hne). reflexivity.
Qed.

Lemma row_index_degenerate_witness :
  _interpolate_row_index (ctx_of densities_points) = Err DivisionByZero.
Proof.
  apply (proj2 (row_index_degenerate (ctx_of densities_points))).
  - reflexivity.
  - discriminate.
Defined.

Lemma trace_index_rows_zero (n : Z) (rows : Densities) (k : Z) :
  (n - 1 = 0)%Z ->
  (concat rows <> [] -> trace_index_rows n rows k = Err DivisionByZero)
  /\ (concat rows = [] -> trace_index_rows n rows k = Ok (map (fun _ => []) rows)).
Proof.
  intro Hn. revert k. induction rows as [| row rows IH]; intro k.
  - split; [intro H; contradiction | reflexivity].
  - destruct row as [| t row].
    + cbn [concat app trace_index_rows trace_index_row bind fst snd].
      destruct (IH k) as [IHerr IHok]. split; intro Hc.
      * rewrite (IHerr Hc). reflexivity.
      * rewrite (IHok Hc). reflexivity.
    + split; [| intro Hc; discriminate Hc].
      intros _. cbn [trace_index_rows trace_index_row].
      rewrite (index_position_zero n k Hn). reflexivity.
Qed.

(** X8. The trace-index strategy raises exactly when the context counts one
    trace and the dataset has a trace; the error is then the division by
    zero. *)
Theorem trace_index_degenerate (ctx : InterpolationContext) :
  (is_err (_interpolate_trace_index ctx) = true
   <-> n_traces ctx = 1%Z /\ concat (densities ctx) <> [])
  /\ (n_traces ctx = 1%Z -> concat (densities ctx) <> [] ->
      _interpolate_trace_index ctx = Err DivisionByZero).
Proof.
  unfold _interpolate_trace_index.
  assert (Hone : n_traces ctx = 1%Z -> concat (densities ctx) <> [] ->
                 trace_index_rows (n_traces ctx) (densities ctx) 0 = Err DivisionByZero).
  { intros Hn Hne.
    apply (proj1 (trace_index_rows_zero (n_traces ctx) (densities ctx) 0 ltac:(lia)) Hne). }
  split; [| exact Hone]. split.
  - intro Herr. destruct (Z.eq_dec (n_traces ctx) 1) as [Hn | Hn].
    + split; [exact Hn |]. intro Hnil.
      rewrite (proj2 (trace_index_rows_zero (n_traces ctx) (densities ctx) 0 ltac:(lia)) Hnil)
        in Herr.
      discriminate Herr.
    + exfalso.
      destruct (trace_index_rows_ok (n_traces ctx) (densities ctx) 0 ltac:(lia))
        as (ps & Hps & _).
      apply (is_err_ok_false _ _ Hps Herr).
  - intros [Hn Hne]. rewrite (Hone Hn Hne). reflexivity.
Qed.

Lemma trace_index_degenerate_witness :
  _interpolate_trace_index (ctx_of densities_points) = Err DivisionByZero.
Proof.
  apply (proj2 (trace_index_degenerate (ctx_of densities_points))).
  - reflexivity.
  - discriminate.
Defined.

Lemma row_wise_row_ok (n : Z) (k m : nat) :
  (n - 1 <> 0)%Z ->
  mapM (fun i => index_position n (Z.of_nat i)) (seq k m)
  = Ok (positions n (Z.of_nat k) m).
Proof.
  intro Hn. revert k. induction m as [| m IH]; intro k.
  - reflexivity.
  - cbn [seq mapM positions]. rewrite (index_position_ok _ _ Hn). cbn [bind].
    rewrite IH. cbn [bind]. do 3 f_equal. lia.
Qed.

Lemma positions_ends (n : Z) (m : nat) :
  (n - 1 <> 0)%Z -> Z.of_nat m = n -> (2 <= m)%nat ->
  exists first mid last,
    positions n 0 m = first :: mid ++ [last] /\ first == 1 /\ last == 0.
Proof.
  intros Hn Hm H2.
  replace m with (1 + ((m - 2) + 1))%nat by lia.
  rewrite (positions_app n 0 1). cbn [positions app].
  rewrite (positions_app n (0 + Z.of_nat 1) (m - 2) 1). cbn [positions].
  eexists. eexists. eexists. split; [reflexivity |].
  split; [apply position_of_first; exact Hn |].
  replace (0 + Z.of_nat 1 + Z.of_nat (m - 2))%Z with (n - 1)%Z by lia.
  apply position_of_last.
Qed.

Lemma mapM_exists_err {A B} (f : A -> Res B) (l : list A) :
  Exists (fun a => is_err (f a) = true) l -> is_err (mapM f l) = true.
Proof.
  induction 1 as [a l Ha | a l _ IH]; simpl.
  - destruct (f a); [discriminate Ha | reflexivity].
  - destruct (f a); [| reflexivity]. simpl.
    destruct (mapM f l); [discriminate IH | reflexivity].
Qed.

Lemma mapM_one_error {A B} (f : A -> Res B) (l : list A) (e : exn) :
  (forall a, In a l -> f a = Err e \/ exists b, f a = Ok b) ->
  Exists (fun a => f a = Err e) l ->
  mapM f l = Err e.
Proof.
  intros Hf Hex. induction Hex as [a l Ha | a l _ IH]; cbn [mapM].
  - rewrite Ha. reflexivity.
  - destruct (Hf a (or_introl eq_refl)) as [-> | (b & ->)]; [reflexivity |].
    cbn [bind]. rewrite IH; [reflexivity |].
    intros a' Ha'. apply Hf. right. exact Ha'.
Qed.

Lemma row_wise_row (row : Row) :
  (List.length row = 1%nat ->
   mapM (fun i => index_position (len row) (Z.of_nat i)) (seq 0 (List.length row))
   = Err DivisionByZero)
  /\ (List.length row <> 1%nat ->
      mapM (fun i => index_position (len row) (Z.of_nat i)) (seq 0 (List.length row))
      = Ok (positions (len row) 0 (List.length row))).
Proof.
  split; intro Hlen.
  - rewrite Hlen. cbn [seq mapM]. unfold len. rewrite Hlen.
    rewrite index_position_zero by reflexivity. reflexivity.
  - apply (row_wise_row_ok (len row) 0 (List.length row)). unfold len. lia.
Qed.

(** X9. The row-wise strategy does not read the counts of the context.  It
    raises exactly when some row has a single trace, and what it raises is
    then the division by zero.  Otherwise it gives to every row as many
    positions as the row has traces, and in a row of two or more traces the
    first position is 1 and the last is 0. *)
Theorem row_wise_positions (ctx : InterpolationContext) :
  (is_err (_interpolate_trace_index_row_wise ctx) = true
   <-> Exists (fun row => List.length row = 1%nat) (densities ctx))
  /\ (Exists (fun row => List.length row = 1%nat) (densities ctx) ->
      _interpolate_trace_index_row_wise ctx = Err DivisionByZero)
  /\ (Forall (fun row => List.length row <> 1%nat) (densities ctx) ->
      exists ps,
        _interpolate_trace_index_row_wise ctx = Ok ps
        /\ Forall2 (fun (row : Row) (ps_row : list Q) =>
                      List.length ps_row = List.length row
                      /\ ((2 <= List.length row)%nat ->
                          exists first mid last,
                            ps_row = first :: mid ++ [last] /\ first == 1 /\ last == 0))
                   (densities ctx) ps).
Proof.
  unfold _interpolate_trace_index_row_wise.
  assert (Hgood : Forall (fun row => List.length row <> 1%nat) (densities ctx) ->
                  mapM (fun row : Row =>
                          mapM (fun i => index_position (len row) (Z.of_nat i))
                               (seq 0 (List.length row)))
                       (densities ctx)
                  = Ok (map (fun row : Row => positions (len row) 0 (List.length row))
                            (densities ctx))).
  { intro Hall. apply mapM_pure. intros row Hrow.
    rewrite Forall_forall in Hall.
    apply (proj2 (row_wise_row row)). apply Hall. exact Hrow. }
  assert (Hbad : Exists (fun row => List.length row = 1%nat) (densities ctx) ->
                 mapM (fun row : Row =>
                         mapM (fun i => index_position (len row) (Z.of_nat i))
                              (seq 0 (List.length row)))
                      (densities ctx)
                 = Err DivisionByZero).
  { intro Hex. apply mapM_one_error.
    - intros row _. destruct (Nat.eq_dec (List.length row) 1) as [Hlen | Hlen].
      + left. apply (proj1 (row_wise_row row)). exact Hlen.
      + right. eexists. apply (proj2 (row_wise_row row)). exact Hlen.
    - apply Exists_exists in Hex. destruct Hex as (row & Hrow & Hlen).
      apply Exists_exists. exists row. split; [exact Hrow |].
      apply (proj1 (row_wise_row row)). exact Hlen. }
  split; [| split; [exact Hbad |]].
  - split.
    + intro Herr.
      destruct (Forall_Exists_dec (fun row : Row => List.length row <> 1%nat)
                  (fun row => match Nat.eq_dec (List.length row) 1 with
                              | left e => right (fun H => H e)
                              | right n => left n
                              end)
                  (densities ctx)) as [Hall | Hex].
      * exfalso. apply (is_err_ok_false _ _ (Hgood Hall) Herr).
      * apply Exists_exists in Hex. destruct Hex as (row & Hrow & Hlen).
        apply Exists_exists. exists row. split; [exact Hrow | lia].
    + intro Hex. rewrite (Hbad Hex). reflexivity.
  - intro Hall. rewrite (Hgood Hall). eexists. split; [reflexivity |].
    clear Hgood Hbad. induction Hall as [| row rows Hlen _ IH]; cbn [map]; constructor.
    + split; [apply positions_length |].
      intro H2. apply positions_ends; unfold len; lia.
    + exact IH.
Qed.

(** A row of three traces, an empty row and a row of two; then the same
    rows followed by a row of one trace. *)
Lemma row_wise_positions_witness :
  let t : Trace := [[0; 1]; [1; 1]] in
  (exists ps,
     _interpolate_trace_index_row_wise
       {| densities := [[t; t; t]; []; [t; t]];
          n_rows := 0; n_traces := 0; x_min := 0; x_max := 0 |} = Ok ps
     /\ Forall2 (fun (row : Row) (ps_row : list Q) =>
                   List.length ps_row = List.length row
                   /\ ((2 <= List.length row)%nat ->
                       exists first mid last,
                         ps_row = first :: mid ++ [last] /\ first == 1 /\ last == 0))
                [[t; t; t]; []; [t; t]] ps)
  /\ _interpolate_trace_index_row_wise
       {| densities := [[t; t; t]; []; [t; t]; [t]];
          n_rows := 0; n_traces := 0; x_min := 0; x_max := 0 |} = Err DivisionByZero.
Proof.
  intro t. split.
  - apply (proj2 (proj2 (row_wise_positions
                           {| densities := [[t; t; t]; []; [t; t]];
                              n_rows := 0; n_traces := 0; x_min := 0; x_max := 0 |}))).
    repeat constructor; discriminate.
  - apply (proj1 (proj2 (row_wise_positions
                           {| densities := [[t; t; t]; []; [t; t]; [t]];
                              n_rows := 0; n_traces := 0; x_min := 0; x_max := 0 |}))).
    right. right. right. left. reflexivity.
Defined.

Lemma position_of_range (n i : Z) :
  (2 <= n)%Z -> (0 <= i <= n - 1)%Z -> 0 <= position_of n i <= 1.
Proof.
  intros Hn Hi. unfold position_of.
  assert (Hd : 0 < inject_Z (n - 1)) by (rewrite <- (Zlt_Qlt 0); lia).
  split.
  - apply Qle_shift_div_l; [exact Hd |]. rewrite Qmult_0_l.
    rewrite <- (Zle_Qle 0). lia.
  - apply Qle_shift_div_r; [exact Hd |]. rewrite Qmult_1_l.
    rewrite <- Zle_Qle. lia.
Qed.

Lemma position_of_decreasing (n i j : Z) :
  (2 <= n)%Z -> (i < j)%Z -> position_of n j < position_of n i.
Proof.
  intros Hn Hij. unfold position_of, Qdiv.
  assert (Hd : 0 < inject_Z (n - 1)) by (rewrite <- (Zlt_Qlt 0); lia).
  apply Qmult_lt_r; [apply Qinv_lt_0_compat; exact Hd |].
  rewrite <- Zlt_Qlt. lia.
Qed.

Lemma positions_in (n k : Z) (m : nat) (v : Q) :
  In v (positions n k m) ->
  exists i, (k <= i < k + Z.of_nat m)%Z /\ v = position_of n i.
Proof.
  revert k. induction m as [| m IH]; intros k Hv; [contradiction |].
  destruct Hv as [<- | Hv].
  - exists k. split; [lia | reflexivity].
  - destruct (IH _ Hv) as (i & Hi & ->). exists i. split; [lia | reflexivity].
Qed.

Lemma positions_sorted (n k : Z) (m : nat) :
  (2 <= n)%Z -> StronglySorted (fun a b => b < a) (positions n k m).
Proof.
  intro Hn. revert k. induction m as [| m IH]; intro k; cbn [positions]; constructor.
  - apply IH.
  - apply Forall_forall. intros v Hv. destruct (positions_in _ _ _ _ Hv) as (i & Hi & ->).
    apply position_of_decreasing; [exact Hn | lia].
Qed.

(** X11. With the trace count of its dataset, two or more, in the context, the
    positions of the trace-index strategy decrease strictly along the
    row-major order of the traces and all lie in [0, 1]. *)
Theorem trace_index_decreasing (ctx : InterpolationContext) :
  n_traces ctx = sum_len (densities ctx) -> (2 <= n_traces ctx)%Z ->
  exists ps,
    _interpolate_trace_index ctx = Ok ps
    /\ StronglySorted (fun a b => b < a) (concat ps)
    /\ Forall (fun p => 0 <= p <= 1) (concat ps).
Proof.
  intros Hcount Hn. unfold _interpolate_trace_index.
  destruct (trace_index_rows_ok (n_traces ctx) (densities ctx) 0 ltac:(lia))
    as (ps & Hps & _ & Hcat).
  exists ps. split; [exact Hps |]. rewrite Hcat. split.
  - apply positions_sorted. exact Hn.
  - apply Forall_forall. intros v Hv. destruct (positions_in _ _ _ _ Hv) as (i & Hi & ->).
    apply position_of_range; [exact Hn |].
    rewrite sum_len_concat in Hcount. unfold len in Hcount. lia.
Qed.

Lemma trace_index_decreasing_witness :
  let t : Trace := [[0; 1]; [1; 1]] in
  let ctx := {| densities := [[t]; [t; t]; [t]];
                n_rows := 3; n_traces := 4; x_min := 0; x_max := 1 |} in
  exists ps,
    _interpolate_trace_index ctx = Ok ps
    /\ StronglySorted (fun a b => b < a) (concat ps)
    /\ Forall (fun p => 0 <= p <= 1) (concat ps).
Proof.
  intros t ctx. apply (trace_index_decreasing ctx); [reflexivity | simpl; lia].
Defined.

Lemma nth_error_enumerate {A} (l : list A) (k i : nat) :
  nth_error (combine (seq k (List.length l)) l) i
  = option_map (fun a => ((k + i)%nat, a)) (nth_error l i).
Proof.
  revert k i. induction l as [| a l IH]; intros k i.
  - destruct i; reflexivity.
  - destruct i as [| i]; cbn [List.length seq combine nth_error option_map].
    + rewrite Nat.add_0_r. reflexivity.
    + rewrite IH. destruct (nth_error l i); [| reflexivity].
      cbn [option_map]. do 2 f_equal. lia.
Qed.

Lemma row_index_row (ctx : InterpolationContext) (ps : ColorscaleInterpolants)
    (i : nat) (r : list Q) :
  (n_rows ctx - 1 <> 0)%Z ->
  _interpolate_row_index ctx = Ok ps ->
  nth_error ps i = Some r ->
  exists row,
    nth_error (densities ctx) i = Some row
    /\ r = repeat (position_of (n_rows ctx) (Z.of_nat i)) (List.length row).
Proof.
  intros Hn Hps Hr. rewrite (row_index_ok ctx Hn) in Hps. injection Hps as <-.
  rewrite nth_error_map in Hr. unfold enumerate in Hr. rewrite nth_error_enumerate in Hr.
  destruct (nth_error (densities ctx) i) as [row |]; [| discriminate Hr].
  cbn [option_map fst snd] in Hr. injection Hr as <-.
  exists row. split; reflexivity.
Qed.

(** X10. With the row count of its dataset, two or more, in the context, the
    positions of the row-index strategy all lie in [0, 1], and every trace
    of a later row has a strictly smaller position than every trace of an
    earlier row. *)
Theorem row_index_decreasing (ctx : InterpolationContext) :
  n_rows ctx = len (densities ctx) -> (2 <= n_rows ctx)%Z ->
  exists ps,
    _interpolate_row_index ctx = Ok ps
    /\ Forall (Forall (fun p => 0 <= p <= 1)) ps
    /\ forall i j ri rj vi vj,
         (i < j)%nat ->
         nth_error ps i = Some ri -> nth_error ps j = Some rj ->
         In vi ri -> In vj rj -> vj < vi.
Proof.
  intros Hcount Hn.
  assert (Hn1 : (n_rows ctx - 1 <> 0)%Z) by lia.
  pose proof (row_index_ok ctx Hn1) as Hps.
  eexists. split; [exact Hps |]. split.
  - apply Forall_forall. intros r Hr. apply In_nth_error in Hr. destruct Hr as (i & Hi).
    destruct (row_index_row ctx _ i r Hn1 Hps Hi) as (row & Hrow & ->).
    apply Forall_forall. intros v Hv. apply repeat_spec in Hv. subst v.
    apply position_of_range; [exact Hn |].
    assert (i < List.length (densities ctx))%nat by (apply nth_error_Some; congruence).
    unfold len in Hcount. lia.
  - intros i j ri rj vi vj Hij Hi Hj Hvi Hvj.
    destruct (row_index_row ctx _ i ri Hn1 Hps Hi) as (rowi & _ & ->).
    destruct (row_index_row ctx _ j rj Hn1 Hps Hj) as (rowj & _ & ->).
    apply repeat_spec in Hvi. apply repeat_spec in Hvj. subst vi vj.
    apply position_of_decreasing; [exact Hn | lia].
Qed.

Lemma row_index_decreasing_witness :
  let t : Trace := [[0; 1]; [1; 1]] in
  let ctx := {| densities := [[t]; [t; t]; [t]];
                n_rows := 3; n_traces := 4; x_min := 0; x_max := 1 |} in
  exists ps,
    _interpolate_row_index ctx = Ok ps
    /\ Forall (Forall (fun p => 0 <= p <= 1)) ps
    /\ forall i j ri rj vi vj,
         (i < j)%nat ->
         nth_error ps i = Some ri -> nth_error ps j = Some rj ->
         In vi ri -> In vj rj -> vj < vi.
Proof.
  intros t ctx. apply (row_index_decreasing ctx); [reflexivity | simpl; lia].
Defined.

(** ** The mean strategies: errors *)

Lemma trace_mean_bad (pts : Points) :
  pts = [] \/ py_sum (map snd pts) == 0 ->
  is_err (trace_mean (trace_of_points pts)) = true.
Proof.
  intro Hbad. destruct pts as [| xy pts]; [reflexivity |].
  destruct Hbad as [Hnil | Hsum]; [discriminate Hnil |].
  unfold trace_mean. rewrite (zip_star_points (xy :: pts)) by discriminate.
  cbn [unpack2 bind fst snd]. unfold py_truediv.
  apply Qeq_bool_iff in Hsum. rewrite Hsum. reflexivity.
Qed.

Lemma bind_err {A B} (r : Res A) (k : A -> Res B) :
  is_err r = true -> is_err (bind r k) = true.
Proof. destruct r; [discriminate | reflexivity]. Qed.

(** X13. A trace without points, or whose weights sum to zero, anywhere in the
    dataset makes both mean strategies raise, whatever the context holds. *)
Theorem mean_strategies_bad_trace (ctx : InterpolationContext) (data : list (list Points)) :
  densities ctx = map (map trace_of_points) data ->
  Exists (Exists (fun pts => pts = [] \/ py_sum (map snd pts) == 0)) data ->
  is_err (_interpolate_mean_minmax ctx) = true
  /\ is_err (_interpolate_mean_means ctx) = true.
Proof.
  intros Hdens Hbad.
  apply Exists_exists in Hbad. destruct Hbad as (row & Hrow & Hbad).
  apply Exists_exists in Hbad. destruct Hbad as (pts & Hpts & Hbad).
  pose proof (trace_mean_bad pts Hbad) as Herr.
  split.
  - unfold _interpolate_mean_minmax. rewrite Hdens, mapM_map.
    apply mapM_exists_err. apply Exists_exists. exists row. split; [exact Hrow |].
    rewrite mapM_map. apply mapM_exists_err. apply Exists_exists.
    exists pts. split; [exact Hpts |]. apply bind_err. exact Herr.
  - unfold _interpolate_mean_means. apply bind_err. rewrite Hdens, mapM_map.
    apply mapM_exists_err. apply Exists_exists. exists row. split; [exact Hrow |].
    rewrite mapM_map. apply mapM_exists_err. apply Exists_exists.
    exists pts. split; [exact Hpts | exact Herr].
Qed.

Lemma mean_strategies_bad_trace_witness :
  let data : list (list Points) := [ [ [(0, 1); (1, 1)] ]; [ [(2, 1); (4, -1)] ] ] in
  let ctx := {| densities := map (map trace_of_points) data;
                n_rows := 2; n_traces := 2; x_min := 0; x_max := 4 |} in
  is_err (_interpolate_mean_minmax ctx) = true
  /\ is_err (_interpolate_mean_means ctx) = true.
Proof.
  intros data ctx. apply (mean_strategies_bad_trace ctx data).
  - reflexivity.
  - right. left. left. right. reflexivity.
Defined.

(** ** [interpolate_color]: scales that do not span [p] *)

Section InterpolateColorErrors.
Context {Color : Type}.
Variable to_rgb' : Color -> Res Color.
Variable blend : Color -> Color -> Q -> Res Color.

Lemma filter_none (f : Q -> bool) (scale : list Q) :
  (forall s, In s scale -> f s = false) -> filter f scale = [].
Proof.
  induction scale as [| s scale IH]; intro Hf; simpl; [reflexivity |].
  rewrite (Hf s (or_introl eq_refl)). apply IH. intros s' Hs'. apply Hf. right. exact Hs'.
Qed.

(** X16. For [p] in [0, 1] off the stops of a scale whose colours convert,
    [interpolate_color] needs a stop above and a stop below [p]: without a
    stop above it raises the error of [min] on an empty sequence, and with
    one above but none below that of [max].  The empty scale is such a
    scale. *)
Theorem interpolate_color_missing_bracket (cs : ColorScale Color) (p : Q) :
  0 <= p <= 1 ->
  py_in p (map fst cs) = false ->
  (forall c, In c (map snd cs) -> exists c', to_rgb' c = Ok c') ->
  ((forall s, In s (map fst cs) -> ~ p < s) ->
   interpolate_color to_rgb' blend cs p = Err (EmptySequenceArg "min"))
  /\ ((exists s, In s (map fst cs) /\ p < s) ->
      (forall s, In s (map fst cs) -> ~ s < p) ->
      interpolate_color to_rgb' blend cs p = Err (EmptySequenceArg "max")).
Proof.
  intros Hp Hoff Hrgb.
  destruct (mapM_total to_rgb' (map snd cs) Hrgb) as (colors & Hcolors).
  apply unit_interval_test in Hp.
  split.
  - intro Hnone. unfold interpolate_color. rewrite Hp, Hoff, Hcolors. cbn [bind].
    change (filter (fun s => gt s p) (map fst cs))
      with (filter (fun s => Qltb p s) (map fst cs)).
    rewrite filter_none; [reflexivity |].
    intros s Hs. apply Qltb_ge. apply Qnot_lt_le. apply Hnone. exact Hs.
  - intros (s & Hs & Hps) Hnone. unfold interpolate_color.
    rewrite Hp, Hoff, Hcolors. cbn [bind].
    change (filter (fun s => gt s p) (map fst cs))
      with (filter (fun s => Qltb p s) (map fst cs)).
    change (filter (fun s => lt s p) (map fst cs))
      with (filter (fun s => Qltb s p) (map fst cs)).
    destruct (py_min_filter (fun s => Qltb p s) (map fst cs) s Hs) as (m & -> & _).
    { apply Qltb_lt. exact Hps. }
    cbn [bind]. rewrite (filter_none (fun s => Qltb s p)); [reflexivity |].
    intros s' Hs'. apply Qltb_ge. apply Qnot_lt_le. apply Hnone. exact Hs'.
Qed.

Lemma mapM_first_error {A B} (f : A -> Res B) (pre : list A) (a : A) (post : list A)
    (e : exn) :
  (forall x, In x pre -> exists y, f x = Ok y) -> f a = Err e ->
  mapM f (pre ++ a :: post) = Err e.
Proof.
  intros Hpre Ha. induction pre as [| x pre IH]; cbn [app mapM].
  - rewrite Ha. reflexivity.
  - destruct (Hpre x (or_introl eq_refl)) as (y & ->). cbn [bind].
    rewrite IH; [reflexivity |]. intros x' Hx'. apply Hpre. right. exact Hx'.
Qed.

(** X17. Off the stops every colour of the scale is converted before the
    bracket is looked for: the first colour that does not convert makes the
    call raise its error, also when that colour is not one of the bracket. *)
Theorem interpolate_color_conversion_error (pre post : ColorScale Color)
    (s p : Q) (c : Color) (e : exn) :
  0 <= p <= 1 ->
  py_in p (map fst (pre ++ (s, c) :: post)) = false ->
  (forall c', In c' (map snd pre) -> exists r, to_rgb' c' = Ok r) ->
  to_rgb' c = Err e ->
  interpolate_color to_rgb' blend (pre ++ (s, c) :: post) p = Err e.
Proof.
  intros Hp Hoff Hpre Hc. unfold interpolate_color.
  apply unit_interval_test in Hp. rewrite Hp, Hoff.
  rewrite (map_app snd). cbn [map snd].
  rewrite (mapM_first_error to_rgb' (map snd pre) c (map snd post) e Hpre Hc).
  reflexivity.
Qed.

End InterpolateColorErrors.

(** A scale that stops at 1/2, asked at 3/4; a scale that starts at 1/2,
    asked at 1/4. *)
Lemma interpolate_color_missing_bracket_witness :
  interpolate_color_rgba [ (0, rgb 0 0 0); (1 # 2, rgb 9 9 9) ] (3 # 4)
  = Err (EmptySequenceArg "min")
  /\ interpolate_color_rgba [ (1 # 2, rgb 9 9 9); (1, rgb 0 0 0) ] (1 # 4)
     = Err (EmptySequenceArg "max").
Proof.
  split.
  - apply (proj1 (interpolate_color_missing_bracket to_rgb find_intermediate_color
                    [ (0, rgb 0 0 0); (1 # 2, rgb 9 9 9) ] (3 # 4)
                    ltac:(split; discriminate) eq_refl
                    ltac:(intros c _; exists c; reflexivity))).
    intros s [<- | [<- | []]] H; vm_compute in H; discriminate H.
  - apply (proj2 (interpolate_color_missing_bracket to_rgb find_intermediate_color
                    [ (1 # 2, rgb 9 9 9); (1, rgb 0 0 0) ] (1 # 4)
                    ltac:(split; discriminate) eq_refl
                    ltac:(intros c _; exists c; reflexivity))).
    + exists 1. split; [right; left; reflexivity | reflexivity].
    + intros s [<- | [<- | []]] H; vm_compute in H; discriminate H.
Defined.

(** A converter that refuses colours with a negative red channel: the
    scale has such a colour at its last stop and is asked near its first. *)
Lemma interpolate_color_conversion_error_witness :
  interpolate_color
    (fun c : RGBA => if Qle_bool 0 (red c) then Ok c else Err (ColorError "negative"))
    find_intermediate_color
    ([ (0, rgb 0 0 0); (1 # 2, rgb 9 9 9) ] ++ (1, rgb (-1) 0 0) :: []) (1 # 4)
  = Err (ColorError "negative").
Proof.
  apply (interpolate_color_conversion_error
           (fun c : RGBA => if Qle_bool 0 (red c) then Ok c else Err (ColorError "negative"))
           find_intermediate_color
           [ (0, rgb 0 0 0); (1 # 2, rgb 9 9 9) ] [] 1 (1 # 4) (rgb (-1) 0 0)).
  - split; discriminate.
  - reflexivity.
  - intros c' [<- | [<- | []]]; eexists; reflexivity.
  - reflexivity.
Defined.

(** ** [compute_trace_colors]: the solid modes *)

Lemma solid_key_not_gradient (colormode : string) (f : InterpolationFunc) :
  dict_get SOLID_COLORMODE_MAPS colormode = Some f ->
  String.eqb colormode "fillgradient" = false.
Proof.
  intro Hf. destruct (String.eqb colormode "fillgradient") eqn:E; [| reflexivity].
  apply String.eqb_eq in E. subst colormode. discriminate Hf.
Qed.

Lemma Forall2_map_right {A B} (R : A -> B -> Prop) (g : A -> B) (l : list A) :
  (forall x, R x (g x)) -> Forall2 R l (map g l).
Proof.
  intro HR. induction l as [| x l IH]; cbn [map]; constructor; [apply HR | exact IH].
Qed.

Lemma generate_stops {A B} (f : A -> Res B) (pre : list A) (a : A) (post : list A)
    (e : exn) :
  f a = Err e ->
  exists (bs : list B) (e' : exn),
    generate f (pre ++ a :: post) = map Ok bs ++ [Err e']
    /\ (List.length bs <= List.length pre)%nat
    /\ (List.length bs = List.length pre -> e' = e).
Proof.
  intro Ha. induction pre as [| x pre IH]; cbn [app generate].
  - rewrite Ha. exists [], e. repeat split. simpl. lia.
  - destruct (f x) as [b | e0].
    + destruct IH as (bs & e' & -> & Hlen & Hlast).
      exists (b :: bs), e'. split; [reflexivity |]. simpl. split; [lia |].
      intro Heq. apply Hlast. lia.
    + exists [], e0. split; [reflexivity |]. simpl. split; [lia |].
      intro Heq. discriminate Heq.
Qed.

Section SolidMode.
Context {Color ColorscaleArg : Type}.
Variable to_rgb' : Color -> Res Color.
Variable blend : Color -> Color -> Q -> Res Color.
Variable with_alpha : Color -> Q -> Res Color.
Variable round' : Color -> nat -> Res Color.
Variable validate : ColorscaleArg -> Res (ColorScale Color).

(** X19. In a solid mode the strategy runs when [compute_trace_colors] is
    called, the colours only when the result is consumed.  An error of the
    strategy is the error of the call.  When the strategy returns, so does
    the call, with one row of items per row of interpolants.  A row whose
    interpolant [p] is outside [0, 1] ends in an error and yields nothing
    for the interpolants after [p]: it gives at most the colours of the
    interpolants before [p], and when it gives all of these, the error is
    the domain error of [p]. *)
Theorem compute_trace_colors_solid_errors
    (arg : ColorscaleArg) (cs : ColorScale Color) (colormode : string)
    (f : InterpolationFunc) (opacity : option Q) (ctx : InterpolationContext) :
  validate arg = Ok cs ->
  (forall c a, exists c', with_alpha c a = Ok c') ->
  dict_get SOLID_COLORMODE_MAPS colormode = Some f ->
  (forall e, f ctx = Err e ->
     compute_trace_colors to_rgb' blend with_alpha round' validate arg colormode opacity ctx
     = Err e)
  /\ (forall ps, f ctx = Ok ps ->
      exists items,
        compute_trace_colors to_rgb' blend with_alpha round' validate arg colormode
          opacity ctx = Ok items
        /\ Forall2 (fun (row : list Q) (its : list (Res (FillSpec Color))) =>
                      forall pre p post,
                        row = pre ++ p :: post -> ~ 0 <= p <= 1 ->
                        exists specs e,
                          its = map Ok specs ++ [Err e]
                          /\ (List.length specs <= List.length pre)%nat
                          /\ (List.length specs = List.length pre ->
                              e = PointOutsideUnit p))
                   ps items).
Proof.
  intros Hvalid Halpha Hf.
  assert (Hstage : exists cs',
             match opacity with
             | Some a => mapM (fun vc : Q * Color =>
                                 c <- with_alpha (snd vc) a ;; Ok (fst vc, c)) cs
             | None => Ok cs
             end = Ok cs').
  { destruct opacity as [a |]; [| exists cs; reflexivity].
    apply mapM_total. intros [v c] _. simpl.
    destruct (Halpha c a) as (c' & ->). simpl. eexists. reflexivity. }
  destruct Hstage as (cs' & Hstage).
  pose proof (solid_key_not_gradient colormode f Hf) as Hmode.
  unfold compute_trace_colors. rewrite Hvalid. cbn [bind].
  destruct opacity as [a |]; [rewrite Hstage |]; cbn [bind]; clear Hstage;
    rewrite Hmode, Hf.
  all: split; [intros e He; rewrite He; reflexivity |].
  all: intros ps Hps; rewrite Hps; cbn [bind]; eexists; (split; [reflexivity |]).
  all: apply Forall2_map_right; intros row pre p post -> Hout.
  all: apply generate_stops.
  all: unfold _get_fill_color; rewrite interpolate_color_outside by exact Hout; reflexivity.
Qed.

End SolidMode.

(** Three rows under a context that counts two: the traces of the third
    row get the position -1, and the row ends with the error of its first
    trace. *)
Lemma compute_trace_colors_solid_errors_witness :
  let t : Trace := [[0; 1]; [1; 1]] in
  let ctx := {| densities := [[t]; [t]; [t; t]];
                n_rows := 2; n_traces := 4; x_min := 0; x_max := 1 |} in
  exists items,
    compute_trace_colors_rgba black_white "row-index" None ctx = Ok items
    /\ Forall2 (fun (row : list Q) (its : list (Res (FillSpec RGBA))) =>
                  forall pre p post,
                    row = pre ++ p :: post -> ~ 0 <= p <= 1 ->
                    exists specs e,
                      its = map Ok specs ++ [Err e]
                      /\ (List.length specs <= List.length pre)%nat
                      /\ (List.length specs = List.length pre ->
                          e = PointOutsideUnit p))
               [[1 # 1]; [0 # 1]; [-1 # 1; -1 # 1]] items.
Proof.
  intros t ctx.
  apply (proj2 (compute_trace_colors_solid_errors to_rgb find_intermediate_color
                  apply_alpha round_color validate_and_coerce_colorscale
                  black_white black_white "row-index" _interpolate_row_index None ctx
                  eq_refl ltac:(intros c a; eexists; reflexivity) eq_refl)).
  reflexivity.
Defined.

Lemma interpolate_color_rgba_inside (cs : ColorScale RGBA) (p : Q) :
  canonicalb cs = true -> 0 <= p <= 1 -> exists c, interpolate_color_rgba cs p = Ok c.
Proof.
  intros Hcan Hp. unfold interpolate_color_rgba.
  destruct (py_in p (map fst cs)) eqn:E.
  - destruct (py_in_index_of p (map fst cs) E) as (i & s & Hi & Hnth & Hs).
    unfold interpolate_color. apply unit_interval_test in Hp. rewrite Hp, E, Hi.
    cbn [bind].
    destruct (item_lt (map snd cs) i) as (c & Hc & _); [| exists c; exact Hc].
    rewrite length_map, <- (length_map fst). apply nth_error_Some. congruence.
  - destruct (interpolate_color_bracket to_rgb find_intermediate_color cs p (map snd cs)
                Hcan (mapM_to_rgb _) Hp E)
      as (fl & ce & i1 & i2 & lo & hi & _ & _ & _ & _ & _ & _ & _ & _ & _ & _ & ->).
    eexists. reflexivity.
Qed.

Lemma canonicalb_recolour (g : RGBA -> RGBA) (cs : ColorScale RGBA) :
  canonicalb (map (fun vc : Q * RGBA => (fst vc, g (snd vc))) cs) = canonicalb cs.
Proof.
  unfold canonicalb. rewrite map_map. reflexivity.
Qed.

(** X20. With the modelled colour helpers and a canonical colour scale, a solid
    mode whose strategy returns positions in [0, 1] gives one fill colour
    per position, with or without opacity: no item of the result raises when
    it is consumed. *)
Theorem compute_trace_colors_solid_ok
    (cs : ColorScale RGBA) (colormode : string) (f : InterpolationFunc)
    (opacity : option Q) (ctx : InterpolationContext) (ps : ColorscaleInterpolants) :
  canonicalb cs = true ->
  dict_get SOLID_COLORMODE_MAPS colormode = Some f ->
  f ctx = Ok ps ->
  Forall (Forall (fun p => 0 <= p <= 1)) ps ->
  exists items,
    compute_trace_colors_rgba cs colormode opacity ctx = Ok items
    /\ Forall2 (Forall2 (fun (p : Q) item => exists c, item = Ok (fillcolor c))) ps items.
Proof.
  intros Hcan Hf Hps Hrange.
  pose proof (solid_key_not_gradient colormode f Hf) as Hmode.
  unfold compute_trace_colors_rgba, compute_trace_colors, validate_and_coerce_colorscale.
  rewrite Hcan. cbn [bind].
  assert (Hitems : forall (cs' : ColorScale RGBA) (qs : list (list Q)),
            canonicalb cs' = true ->
            Forall (Forall (fun p => 0 <= p <= 1)) qs ->
            Forall2 (Forall2 (fun (p : Q) item => exists c, item = Ok (fillcolor c))) qs
              (map (fun row : list Q =>
                      generate (fun p => c <- _get_fill_color to_rgb find_intermediate_color
                                               apply_alpha round_color cs' opacity p ;;
                                         Ok (fillcolor c)) row) qs)).
  { intros cs' qs Hcan' Hqs.
    induction Hqs as [| row rows Hrow _ IH]; cbn [map]; constructor; try exact IH.
    induction Hrow as [| p row Hp _ IHrow]; cbn [generate]; [constructor |].
    unfold _get_fill_color at 1.
    destruct (interpolate_color_rgba_inside cs' p Hcan' Hp) as (c & Hc).
    unfold interpolate_color_rgba in Hc. rewrite Hc. cbn [bind].
    destruct opacity; cbn [apply_alpha round_color bind];
      (constructor; [eexists; reflexivity | exact IHrow]). }
  destruct opacity as [a |].
  - rewrite apply_alpha_scale. cbn [bind]. rewrite Hmode, Hf, Hps. cbn [bind].
    eexists. split; [reflexivity |]. apply Hitems; [| exact Hrange].
    rewrite (canonicalb_recolour
               (fun c => {| red := red c; green := green c; blue := blue c;
                            alpha := Some a |})).
    exact Hcan.
  - cbn [bind]. rewrite Hmode, Hf, Hps. cbn [bind].
    eexists. split; [reflexivity |]. apply Hitems; assumption.
Qed.

Lemma compute_trace_colors_solid_ok_witness :
  let t : Trace := [[0; 1]; [1; 1]] in
  let ctx := {| densities := [[t]; [t; t]; [t]];
                n_rows := 3; n_traces := 4; x_min := 0; x_max := 1 |} in
  exists items,
    compute_trace_colors_rgba black_white "trace-index" (Some (1 # 2)) ctx = Ok items
    /\ Forall2 (Forall2 (fun (p : Q) item => exists c, item = Ok (fillcolor c)))
               [[3 # 3]; [2 # 3; 1 # 3]; [0 # 3]] items.
Proof.
  intros t ctx.
  apply (compute_trace_colors_solid_ok black_white "trace-index" _interpolate_trace_index
           (Some (1 # 2)) ctx [[3 # 3]; [2 # 3; 1 # 3]; [0 # 3]]).
  - reflexivity.
  - reflexivity.
  - reflexivity.
  - repeat constructor; discriminate.
Defined.

(** ** [LazyMapping] *)

Section LazyMappingFacts.
Context {M KT VT E W : Type} `{MappingOps M KT VT E}.

Lemma mapping_loaded (self : LazyMapping M E W) (m : M) (w : W) :
  _inner_mapping self = Some m -> _mapping self w = (inr m, self, w).
Proof.
  intro Hm. unfold _mapping. rewrite Hm. reflexivity.
Qed.

Lemma serve_loaded (self : LazyMapping M E W) (m : M) (rq : request KT) (w : W) :
  _inner_mapping self = Some m -> serve self rq w = (answer m rq, self, w).
Proof.
  intro Hm.
  destruct rq; unfold serve, __getitem__, __iter__, __len__, __str__, __repr__, forward;
    rewrite (mapping_loaded self m w Hm); reflexivity.
Qed.

Lemma run_loaded (self : LazyMapping M E W) (m : M) (rqs : list (request KT)) (w : W) :
  _inner_mapping self = Some m -> run self rqs w = (map (answer m) rqs, self, w).
Proof.
  intro Hm. induction rqs as [| rq rqs IH]; cbn [run map].
  - reflexivity.
  - rewrite (serve_loaded self m rq w Hm), IH. reflexivity.
Qed.

Lemma serve_fresh (loader : W -> (E + M) * W) (rq : request KT) (w0 w1 : W) :
  (forall m, loader w0 = (inr m, w1) ->
     serve (__init__ loader) rq w0
     = (answer m rq, {| _loader := loader; _inner_mapping := Some m |}, w1))
  /\ (forall e, loader w0 = (inl e, w1) ->
        serve (__init__ loader) rq w0 = (Raised e, __init__ loader, w1)).
Proof.
  split; intros x Hload;
    destruct rq; unfold serve, __getitem__, __iter__, __len__, __str__, __repr__,
      forward, _mapping, __init__; cbn [_inner_mapping _loader];
    rewrite Hload; reflexivity.
Qed.

(** X21. However many calls a client makes, in whatever order, the loader runs
    once, at the first of them: every call is answered as the loaded mapping
    answers it, an absent key included, the mapping stays stored, and the
    world is the one the single load has left. *)
Theorem lazy_mapping_loads_once (loader : W -> (E + M) * W) (w0 w1 : W) (m : M)
    (rq : request KT) (rqs : list (request KT)) :
  loader w0 = (inr m, w1) ->
  run (__init__ loader) (rq :: rqs) w0
  = (map (answer m) (rq :: rqs), {| _loader := loader; _inner_mapping := Some m |}, w1).
Proof.
  intro Hload. cbn [run map].
  rewrite (proj1 (serve_fresh loader rq w0 w1) m Hload).
  rewrite (run_loaded {| _loader := loader; _inner_mapping := Some m |} m rqs w1 eq_refl).
  reflexivity.
Qed.

(** X22. A load that raises stores nothing: the call raises the error of the
    loader, and the next call starts over, running the loader again in the
    world the failed load has left. *)
Theorem lazy_mapping_failed_load_retries (loader : W -> (E + M) * W) (w0 w1 : W) (e : E)
    (rq : request KT) (rqs : list (request KT)) :
  loader w0 = (inl e, w1) ->
  run (__init__ loader) (rq :: rqs) w0
  = (let '(rs, self, w) := run (__init__ loader) rqs w1 in (Raised e :: rs, self, w)).
Proof.
  intro Hload. cbn [run].
  rewrite (proj2 (serve_fresh loader rq w0 w1) e Hload). reflexivity.
Qed.

End LazyMappingFacts.

(** A loader that counts its runs; three calls, the last for an absent key. *)
Lemma lazy_mapping_loads_once_witness :
  run (__init__ (fun n : nat => (inr [("a", 1); ("b", 2)]%string%Z, S n)))
      [GetItem "b"%string; Len; GetItem "z"%string] 0%nat
  = ([Value 2%Z; Size 2; Raised (KeyError "z")],
     {| _loader := fun n : nat => (inr [("a", 1); ("b", 2)]%string%Z, S n);
        _inner_mapping := Some [("a", 1); ("b", 2)]%string%Z |},
     1%nat).
Proof.
  rewrite (lazy_mapping_loads_once
             (fun n : nat => (inr [("a", 1); ("b", 2)]%string%Z, S n)) 0%nat 1%nat
             [("a", 1); ("b", 2)]%string%Z (GetItem "b"%string)
             [Len; GetItem "z"%string] eq_refl).
  reflexivity.
Defined.

(** A loader that fails on its first run and succeeds on the second. *)
Lemma lazy_mapping_failed_load_retries_witness :
  run (__init__ (fun n : nat =>
                   match n with
                   | O => (inl LoadFailed, 1%nat)
                   | S _ => (inr [("a", 1)]%string%Z, S n)
                   end))
      [Len; Len; Iter] 0%nat
  = ([Raised LoadFailed; Size 1; Keys ["a"%string]],
     {| _loader := fun n : nat =>
                     match n with
                     | O => (inl LoadFailed, 1%nat)
                     | S _ => (inr [("a", 1)]%string%Z, S n)
                     end;
        _inner_mapping := Some [("a", 1)]%string%Z |},
     2%nat).
Proof.
  rewrite (lazy_mapping_failed_load_retries
             (fun n : nat =>
                match n with
                | O => (inl LoadFailed, 1%nat)
                | S _ => (inr [("a", 1)]%string%Z, S n)
                end) 0%nat 1%nat LoadFailed Len [Len; Iter] eq_refl).
  reflexivity.
Defined.

(** ** What the mean strategies accept as a trace *)

Lemma heads_some (rows : list (list Q)) :
  Forall (fun r => r <> []) rows -> heads rows = Some (column 0 rows).
Proof.
  induction 1 as [| r rows Hr _ IH]; [reflexivity |].
  destruct r as [| a r]; [contradiction |]. cbn [heads]. rewrite IH. reflexivity.
Qed.

Lemma heads_none (rows : list (list Q)) :
  Exists (fun r => r = []) rows -> heads rows = None.
Proof.
  induction 1 as [r rows Hr | r rows _ IH].
  - subst r. reflexivity.
  - destruct r as [| a r]; [reflexivity |]. cbn [heads]. rewrite IH. reflexivity.
Qed.

Lemma rows_empty_dec (rows : list (list Q)) :
  Forall (fun r => r <> []) rows \/ Exists (fun r => r = []) rows.
Proof.
  induction rows as [| r rows [IH | IH]].
  - left. constructor.
  - destruct r as [| a r].
    + right. left. reflexivity.
    + left. constructor; [discriminate | exact IH].
  - right. right. exact IH.
Qed.

Lemma zip_star_aux_stop (fuel : nat) (rows : list (list Q)) :
  Exists (fun r => r = []) rows -> zip_star_aux fuel rows = [].
Proof.
  intro Hex. destruct fuel; [reflexivity |]. cbn [zip_star_aux].
  rewrite (heads_none rows Hex). reflexivity.
Qed.

Lemma zip_star_aux_step (fuel : nat) (rows : list (list Q)) :
  Forall (fun r => r <> []) rows ->
  zip_star_aux (S fuel) rows = column 0 rows :: zip_star_aux fuel (map (@tl Q) rows).
Proof.
  intro Hall. cbn [zip_star_aux]. rewrite (heads_some rows Hall). reflexivity.
Qed.

Lemma column_tl (rows : list (list Q)) : column 0 (map (@tl Q) rows) = column 1 rows.
Proof.
  unfold column. rewrite map_map. apply map_ext. intros [| a r]; reflexivity.
Qed.

Lemma tl_nonempty (rows : list (list Q)) :
  Forall (fun r => (2 <= List.length r)%nat) rows ->
  Forall (fun r => r <> []) rows /\ Forall (fun r => r <> []) (map (@tl Q) rows).
Proof.
  induction 1 as [| r rows Hr _ [IH1 IH2]]; [split; constructor |].
  destruct r as [| a [| b r]]; simpl in Hr; try lia.
  split; cbn [map tl]; constructor; try discriminate; assumption.
Qed.

Lemma tl_tl_empty (rows : list (list Q)) :
  Exists (fun r => List.length r = 2%nat) rows ->
  Exists (fun r => r = []) (map (@tl Q) (map (@tl Q) rows)).
Proof.
  induction 1 as [r rows Hr | r rows _ IH]; cbn [map].
  - left. destruct r as [| a [| b [| c r]]]; try discriminate Hr. reflexivity.
  - right. exact IH.
Qed.

Lemma zip_star_unpacks (trace : Trace) :
  unpacks trace -> zip_star trace = [column 0 trace; column 1 trace].
Proof.
  intros (Hne & Hall & Hex).
  destruct (tl_nonempty trace Hall) as [H0 H1].
  destruct trace as [| pt trace]; [contradiction |].
  unfold zip_star.
  assert (Hlen : (2 <= List.length pt)%nat) by (inversion Hall; assumption).
  destruct (List.length pt) as [| [| fuel]]; try lia.
  rewrite (zip_star_aux_step _ _ H0), (zip_star_aux_step _ _ H1).
  rewrite (zip_star_aux_stop fuel _ (tl_tl_empty _ Hex)), column_tl. reflexivity.
Qed.

Lemma length_two_of_tl (rows : list (list Q)) :
  Forall (fun r => r <> []) rows -> Forall (fun r => r <> []) (map (@tl Q) rows) ->
  Forall (fun r => (2 <= List.length r)%nat) rows.
Proof.
  induction rows as [| r rows IH]; intros H0 H1; constructor.
  - inversion H0 as [| ? ? Hr _]; inversion H1 as [| ? ? Hr' _]; subst.
    destruct r as [| a [| b r]]; simpl; try contradiction; lia.
  - apply IH; [inversion H0 | inversion H1]; assumption.
Qed.

Lemma exactly_two_of_tl (rows : list (list Q)) :
  Forall (fun r => (2 <= List.length r)%nat) rows ->
  Exists (fun r => r = []) (map (@tl Q) (map (@tl Q) rows)) ->
  Exists (fun r => List.length r = 2%nat) rows.
Proof.
  induction 1 as [| r rows Hr _ IH]; cbn [map]; intro Hex; inversion Hex; subst.
  - left. destruct r as [| a [| b [| c r]]]; simpl in *; try lia; try discriminate.
  - right. apply IH. assumption.
Qed.

Lemma zip_star_two (trace : Trace) :
  List.length (zip_star trace) = 2%nat -> unpacks trace.
Proof.
  intro Hlen. destruct trace as [| pt trace]; [discriminate Hlen |].
  unfold zip_star in Hlen. set (rows := pt :: trace) in *.
  destruct (List.length pt) as [| fuel] eqn:Efuel; [discriminate Hlen |].
  destruct (rows_empty_dec rows) as [H0 | H0];
    [| rewrite (zip_star_aux_stop _ _ H0) in Hlen; discriminate Hlen].
  rewrite (zip_star_aux_step _ _ H0) in Hlen.
  destruct fuel as [| fuel]; [discriminate Hlen |].
  destruct (rows_empty_dec (map (@tl Q) rows)) as [H1 | H1];
    [| rewrite (zip_star_aux_stop _ _ H1) in Hlen; discriminate Hlen].
  rewrite (zip_star_aux_step _ _ H1) in Hlen.
  pose proof (length_two_of_tl rows H0 H1) as Hall.
  split; [discriminate |]. split; [exact Hall |].
  destruct fuel as [| fuel].
  - left. exact Efuel.
  - destruct (rows_empty_dec (map (@tl Q) (map (@tl Q) rows))) as [H2 | H2].
    + rewrite (zip_star_aux_step _ _ H2) in Hlen. discriminate Hlen.
    + apply exactly_two_of_tl; assumption.
Qed.

Lemma unpack2_mismatch {A} (items : list A) :
  List.length items <> 2%nat -> unpack2 items = Err (UnpackMismatch 2 (List.length items)).
Proof.
  intro Hlen. destruct items as [| a [| b [| c items]]]; try reflexivity.
  exfalso. apply Hlen. reflexivity.
Qed.

(** X15. The mean strategies read a trace by unpacking the columns of its items
    into [x] and [y].  A trace is accepted exactly when it has an item,
    every item has at least two members and some item has exactly two; the
    mean is then taken over the first two members of every item, and what
    an item holds beyond them is ignored.  Every other trace raises the
    unpacking error. *)
Theorem trace_mean_accepts (trace : Trace) :
  (unpacks trace ->
   trace_mean trace
   = py_truediv (py_sum (_mul (column 0 trace) (column 1 trace)))
                (py_sum (column 1 trace)))
  /\ (~ unpacks trace ->
      exists k, k <> 2%nat /\ trace_mean trace = Err (UnpackMismatch 2 k)).
Proof.
  split.
  - intro Hok. unfold trace_mean. rewrite (zip_star_unpacks trace Hok). reflexivity.
  - intro Hbad. exists (List.length (zip_star trace)).
    assert (Hlen : List.length (zip_star trace) <> 2%nat).
    { intro Hlen. apply Hbad. apply zip_star_two. exact Hlen. }
    split; [exact Hlen |]. unfold trace_mean.
    rewrite (unpack2_mismatch _ Hlen). reflexivity.
Qed.

(** A trace whose first point has a third member, and the trace of the
    specification, a pair of sequences of three samples. *)
Lemma trace_mean_accepts_witness :
  trace_mean [[0; 1; 99]; [2; 3]] = py_truediv (py_sum (_mul [0; 2] [1; 3])) (py_sum [1; 3])
  /\ exists k, k <> 2%nat /\ trace_mean [[0; 1; 2]; [1; 1; 1]] = Err (UnpackMismatch 2 k).
Proof.
  split.
  - apply (proj1 (trace_mean_accepts [[0; 1; 99]; [2; 3]])).
    split; [discriminate |]. split.
    + repeat constructor.
    + right. left. reflexivity.
  - apply (proj2 (trace_mean_accepts [[0; 1; 2]; [1; 1; 1]])).
    intros (_ & _ & Hex). inversion Hex as [? ? H | ? ? H]; subst; [discriminate H |].
    inversion H as [? ? H' | ? ? H']; subst; [discriminate H' | inversion H'].
Defined.

(** ** [interpolate_color]: repeated positions *)

(** X18. Among several stops at the position [p], the first one in the order of
    the scale gives the colour: what follows it, stops at [p] with other
    colours included, is not looked at. *)
Theorem interpolate_color_repeated_position {Color : Type}
    (to_rgb' : Color -> Res Color) (blend : Color -> Color -> Q -> Res Color)
    (pre post : ColorScale Color) (s p : Q) (c : Color) :
  0 <= p <= 1 ->
  s == p ->
  (forall s' c', In (s', c') pre -> ~ s' == p) ->
  interpolate_color to_rgb' blend (pre ++ (s, c) :: post) p = Ok c.
Proof.
  intros Hp Hs Hpre.
  apply (interpolate_color_first_stop to_rgb' blend _ p (List.length pre) s c Hp).
  - rewrite nth_error_app2 by lia. rewrite Nat.sub_diag. reflexivity.
  - exact Hs.
  - intros j [s' c'] Hj Hnth. rewrite nth_error_app1 in Hnth by exact Hj.
    apply (Hpre s' c'). apply (nth_error_In _ _ Hnth).
Qed.

Lemma interpolate_color_repeated_position_witness :
  interpolate_color_rgba
    ([ (0, rgb 0 0 0) ] ++ (1 # 2, rgb 1 1 1) :: [ (2 # 4, rgb 2 2 2); (1, rgb 3 3 3) ])
    (1 # 2)
  = Ok (rgb 1 1 1).
Proof.
  apply (interpolate_color_repeated_position to_rgb find_intermediate_color
           [ (0, rgb 0 0 0) ] [ (2 # 4, rgb 2 2 2); (1, rgb 3 3 3) ] (1 # 2) (1 # 2)
           (rgb 1 1 1)).
  - split; discriminate.
  - reflexivity.
  - intros s' c' [E | []]. injection E as <- _. discriminate.
Defined.
